(** * The file storage gateway of [backend/server.js]

    A shallow embedding of the four Express routes of [server.js]
    ([/upload], [/create], [/edit], [/delete]) together with the parts of
    the Node.js runtime they call: [path.join] (POSIX flavour), the [fs]
    calls [writeFile], [unlink], [existsSync] and [mkdirSync], the UTF-8
    encoding of the strings written, and the disk storage engine of
    multer.

    The file system is an explicit state threaded through every handler;
    a handler maps a state and a request to a new state and a response. *)

From Stdlib Require Import Ascii String ZArith Lia.
From stdpp Require Import gmap strings list fin_maps pretty.

Local Open Scope string_scope.
Local Open Scope list_scope.
Local Open Scope nat_scope.

(** ** JavaScript strings and UTF-8 *)

(** A JavaScript string: the list of its UTF-16 code units, each in
    [0, 0xFFFF]. *)
Definition jsstring : Type := list Z.

Module utf8.

Local Open Scope Z_scope.

(** A byte as a number, and back. *)
Definition toZ (a : ascii) : Z := Z.of_N (N_of_ascii a).
Definition ofZ (n : Z) : ascii := ascii_of_N (Z.to_N n).

(** The two halves of a surrogate pair. *)
Definition isLead (u : Z) : bool := (0xD800 <=? u) && (u <=? 0xDBFF).
Definition isTrail (u : Z) : bool := (0xDC00 <=? u) && (u <=? 0xDFFF).

(** The one to four bytes of a code point. *)
Definition encodeCodePoint (cp : Z) : list Z :=
  if cp <? 0x80 then [cp]
  else if cp <? 0x800 then [0xC0 + cp / 64; 0x80 + cp mod 64]
  else if cp <? 0x10000 then
    [0xE0 + cp / 4096; 0x80 + (cp / 64) mod 64; 0x80 + cp mod 64]
  else
    [0xF0 + cp / 262144; 0x80 + (cp / 4096) mod 64;
     0x80 + (cp / 64) mod 64; 0x80 + cp mod 64].

(** The bytes of a string: a lead surrogate followed by a trail
    surrogate is one code point; a surrogate on its own is written as
    U+FFFD. *)
Fixpoint encodeUnits (s : list Z) : list Z :=
  match s with
  | [] => []
  | u :: rest =>
      if isLead u then
        match rest with
        | v :: rest' =>
            if isTrail v
            then encodeCodePoint (0x10000 + (u - 0xD800) * 1024 + (v - 0xDC00))
                 ++ encodeUnits rest'
            else encodeCodePoint 0xFFFD ++ encodeUnits rest
        | [] => encodeCodePoint 0xFFFD
        end
      else if isTrail u then encodeCodePoint 0xFFFD ++ encodeUnits rest
      else encodeCodePoint u ++ encodeUnits rest
  end.

(** [Buffer.from(s, 'utf8')]. *)
Definition encode (s : jsstring) : string :=
  string_of_list_ascii (map ofZ (encodeUnits s)).

(** The code units of a decoded code point. *)
Definition units (cp : Z) : list Z :=
  if cp <? 0x10000 then [cp]
  else [0xD800 + (cp - 0x10000) / 1024; 0xDC00 + (cp - 0x10000) mod 1024].

(** The decoder, byte by byte.  [needed] continuation bytes are still
    to come for the code point [cp]; the next one has to lie between
    [lower] and [upper].  A byte that cannot start or continue a
    sequence gives U+FFFD, and a byte that ends a sequence too early is
    read again as the start of the next one. *)
Fixpoint decodeFrom (cp : Z) (needed : nat) (lower upper : Z) (bs : list Z)
  : list Z :=
  match bs with
  | [] => match needed with O => [] | S _ => [0xFFFD] end
  | b :: rest =>
      let start :=
        if b <? 0x80 then b :: decodeFrom 0 0 0x80 0xBF rest
        else if (0xC2 <=? b) && (b <=? 0xDF)
        then decodeFrom (b - 0xC0) 1 0x80 0xBF rest
        else if (0xE0 <=? b) && (b <=? 0xEF)
        then decodeFrom (b - 0xE0) 2
               (if b =? 0xE0 then 0xA0 else 0x80)
               (if b =? 0xED then 0x9F else 0xBF) rest
        else if (0xF0 <=? b) && (b <=? 0xF4)
        then decodeFrom (b - 0xF0) 3
               (if b =? 0xF0 then 0x90 else 0x80)
               (if b =? 0xF4 then 0x8F else 0xBF) rest
        else 0xFFFD :: decodeFrom 0 0 0x80 0xBF rest in
      match needed with
      | O => start
      | S n =>
          if (lower <=? b) && (b <=? upper) then
            let cp' := cp * 64 + (b - 0x80) in
            match n with
            | O => units cp' ++ decodeFrom 0 0 0x80 0xBF rest
            | S _ => decodeFrom cp' n 0x80 0xBF rest
            end
          else 0xFFFD :: start
      end
  end.

(** [buffer.toString('utf8')]. *)
Definition decode (data : string) : jsstring :=
  decodeFrom 0 0 0x80 0xBF (map toZ (list_ascii_of_string data)).

(** [s.isWellFormed()], for a list of numbers: every code unit is in
    range and every surrogate is half of a pair. *)
Fixpoint isWellFormed (s : jsstring) : bool :=
  match s with
  | [] => true
  | u :: rest =>
      if isLead u then
        match rest with
        | v :: rest' => isTrail v && isWellFormed rest'
        | [] => false
        end
      else if isTrail u then false
      else (0 <=? u) && (u <? 0x10000) && isWellFormed rest
  end.

(** The strings of bytes that a string can be written as.  A lone
    surrogate is written like U+FFFD, so these are the encodings of the
    well-formed strings. *)
Definition valid (data : string) : Prop :=
  ∃ s : jsstring, isWellFormed s = true ∧ encode s = data.

(** A Unicode scalar value: a code point that is no surrogate. *)
Definition scalar (cp : Z) : Prop :=
  0 <= cp < 0xD800 ∨ 0xE000 <= cp < 0x110000.

End utf8.

(** The JavaScript string that a literal of this file stands for: the
    literal holds its UTF-8 bytes. *)
Definition text (s : string) : jsstring := utf8.decode s.
Coercion text : string >-> jsstring.


(** ** Node's [path] module (POSIX) *)

Module path.

(** The path separator, [CHAR_FORWARD_SLASH]. *)
Definition sep : ascii := "/"%char.

(** [split p] cuts [p] at every separator; a path of [n] separators
    gives [n + 1] segments, some of which may be empty. *)
Fixpoint split (p : string) : list string :=
  match p with
  | EmptyString => [EmptyString]
  | String c p' =>
      if decide (c = sep) then EmptyString :: split p'
      else match split p' with
           | seg :: rest => String c seg :: rest
           | [] => [String c EmptyString]
           end
  end.

(** [path.isAbsolute]: the first character is the separator. *)
Definition isAbsolute (p : string) : bool :=
  match p with
  | String c _ => bool_decide (c = sep)
  | EmptyString => false
  end.

(** Whether the last character of [p] is the separator. *)
Fixpoint trailingSeparator (p : string) : bool :=
  match p with
  | EmptyString => false
  | String c EmptyString => bool_decide (c = sep)
  | String _ p' => trailingSeparator p'
  end.

(** One round of the loop of [normalizeString]: [res] is the stack of
    the segments kept so far, innermost first.  Empty segments and [.]
    are skipped; [..] pops the innermost segment, unless there is none
    (or it is itself [..]), in which case it is kept only when
    [allowAboveRoot]. *)
Definition step (allowAboveRoot : bool) (res : list string) (seg : string)
  : list string :=
  if decide (seg = "") then res
  else if decide (seg = ".") then res
  else if decide (seg = "..") then
    match res with
    | top :: rest =>
        if decide (top = "..")
        then (if allowAboveRoot then ".." :: res else res)
        else rest
    | [] => if allowAboveRoot then [".."] else []
    end
  else seg :: res.

(** [normalizeString], on segments, outermost first. *)
Definition normalizeString (segs : list string) (allowAboveRoot : bool)
  : list string :=
  rev (fold_left (step allowAboveRoot) segs []).

(** Segments put back together with the separator between them. *)
Fixpoint unsplit (segs : list string) : string :=
  match segs with
  | [] => ""
  | [s] => s
  | s :: rest => s +:+ "/" +:+ unsplit rest
  end.

(** [path.normalize]. *)
Definition normalize (p : string) : string :=
  if decide (p = "") then "."
  else
    let isAbs := isAbsolute p in
    let trailing := trailingSeparator p in
    let body := unsplit (normalizeString (split p) (negb isAbs)) in
    if decide (body = "") then
      (if isAbs then "/" else if trailing then "./" else ".")
    else
      let body := if trailing then body +:+ "/" else body in
      if isAbs then "/" +:+ body else body.

(** [path.join]: the non-empty arguments, joined by the separator and
    normalized; [.] when there is nothing to join. *)
Definition join (args : list string) : string :=
  match filter (λ a, a ≠ "") args with
  | [] => "."
  | parts => normalize (unsplit parts)
  end.

End path.

(** ** Node's [fs] module over a tree of directories and regular files *)

Module fs.

(** What a path names: a regular file with its bytes, or a directory. *)
Inductive node : Type :=
| File (data : string)
| Dir.

(** The file system: absolute paths, as the list of their components,
    mapped to nodes.  The empty list is the root directory, which always
    exists (see [entry]).  Symbolic links and permissions are not
    modelled, and the disk neither fills up nor fails: a system call
    fails only for the reasons spelled out below, before it has changed
    anything. *)
Abbreviation state := (gmap (list string) node).

(** The error codes of the system calls below. *)
Inductive errno : Type := ENOENT | ENOTDIR | EISDIR | EEXIST | ENAMETOOLONG.

(** A Node system error: [err.code], [err.syscall], [err.path]. *)
Record Error : Type := mkError {
  code : errno;
  syscall : string;
  epath : string
}.

Definition code_name (c : errno) : string :=
  match c with
  | ENOENT => "ENOENT"
  | ENOTDIR => "ENOTDIR"
  | EISDIR => "EISDIR"
  | EEXIST => "EEXIST"
  | ENAMETOOLONG => "ENAMETOOLONG"
  end.

Definition description (c : errno) : string :=
  match c with
  | ENOENT => "no such file or directory"
  | ENOTDIR => "not a directory"
  | EISDIR => "illegal operation on a directory"
  | EEXIST => "file already exists"
  | ENAMETOOLONG => "name too long"
  end.

(** [err.message], as libuv formats it:
    [CODE: description, syscall 'path']. *)
Definition message (e : Error) : string :=
  code_name (code e) +:+ ": " +:+ description (code e) +:+ ", "
  +:+ syscall e +:+ " '" +:+ epath e +:+ "'".

(** What a call of the [fs] module throws: a system error, or the
    [TypeError] (code [ERR_INVALID_ARG_VALUE]) of [validatePath] for a
    path with a NUL character. *)
Inductive exception : Type :=
| SystemError (err : Error)
| InvalidArgValue (p : string).

(** Whether a string has a NUL character. *)
Fixpoint has_nul (p : string) : bool :=
  match p with
  | EmptyString => false
  | String c p' => bool_decide (c = zero) || has_nul p'
  end.

(** The components of a path handed to a system call.  Every path the
    server passes is an output of [path.join] on an absolute base, so
    it has no [.] or [..] component left; empty components (doubled or
    trailing separators) are skipped as the kernel does. *)
Definition components (p : string) : list string :=
  filter (λ s, s ≠ "") (path.split p).

(** The node at a component list; the root is a directory. *)
Definition entry (st : state) (segs : list string) : option node :=
  match segs with
  | [] => Some Dir
  | _ => st !! segs
  end.

(** The limits of the kernel (Linux): a path takes less than [PATH_MAX]
    bytes, a component at most [NAME_MAX]. *)
Definition PATH_MAX : nat := 4096.
Definition NAME_MAX : nat := 255.

(** Looking a name up in a directory: a name longer than [NAME_MAX] is
    refused, and no directory has an entry whose name holds NUL. *)
Definition name_error (s : string) : option errno :=
  if NAME_MAX <? String.length s then Some ENAMETOOLONG
  else if has_nul s then Some ENOENT
  else None.

(** The length of the path made of the components [segs], each behind
    a separator. *)
Definition path_length (segs : list string) : nat :=
  sum_list_with (λ s, S (String.length s)) segs.

(** From [cwd] down to the parent of the last component: each proper
    ancestor has to be a directory. *)
Fixpoint descend (st : state) (cwd segs : list string) : option errno :=
  match segs with
  | [] => None
  | s :: rest =>
      match rest with
      | [] => None
      | _ =>
          match name_error s with
          | Some c => Some c
          | None =>
              match st !! (cwd ++ [s]) with
              | Some Dir => descend st (cwd ++ [s]) rest
              | Some (File _) => Some ENOTDIR
              | None => Some ENOENT
              end
          end
      end
  end.

(** Path resolution up to the parent of the last component, for the
    path [cwd ++ segs]. *)
Definition walk (st : state) (cwd segs : list string) : option errno :=
  if PATH_MAX <=? path_length (cwd ++ segs) then Some ENAMETOOLONG
  else descend st cwd segs.

(** The look-up of the last component in its parent. *)
Definition final_error (segs : list string) : option errno :=
  match last segs with
  | Some s => name_error s
  | None => None
  end.

(** Path resolution as the system calls do it: the error, or the node
    at [p] ([None] when only the last component is missing). *)
Definition lookup (st : state) (p : string) : errno + option node :=
  let segs := components p in
  if PATH_MAX <=? String.length p then inl ENAMETOOLONG
  else
    match walk st [] segs with
    | Some c => inl c
    | None =>
        match final_error segs with
        | Some c => inl c
        | None => inr (entry st segs)
        end
    end.

(** Path resolution goes through, down to the last component: no limit
    is exceeded and every proper ancestor is a directory. *)
Definition resolves (st : state) (p : string) : Prop :=
  String.length p < PATH_MAX
  ∧ walk st [] (components p) = None
  ∧ final_error (components p) = None.

(** [open(p, O_WRONLY | O_CREAT | O_TRUNC)] followed by writing [data]:
    what [fs.writeFile] and a write stream with the default flags do.
    With [O_CREAT] a trailing separator is refused before the last
    component is looked up. *)
Definition write (st : state) (p data : string) : state * option Error :=
  let segs := components p in
  if PATH_MAX <=? String.length p
  then (st, Some (mkError ENAMETOOLONG "open" p))
  else
    match walk st [] segs with
    | Some c => (st, Some (mkError c "open" p))
    | None =>
        if path.trailingSeparator p
        then (st, Some (mkError EISDIR "open" p))
        else
          match final_error segs with
          | Some c => (st, Some (mkError c "open" p))
          | None =>
              match entry st segs with
              | Some Dir => (st, Some (mkError EISDIR "open" p))
              | _ => (<[segs := File data]> st, None)
              end
          end
    end.

(** The system call [unlink(p)]. *)
Definition remove (st : state) (p : string) : state * option Error :=
  match lookup st p with
  | inl c => (st, Some (mkError c "unlink" p))
  | inr None => (st, Some (mkError ENOENT "unlink" p))
  | inr (Some Dir) => (st, Some (mkError EISDIR "unlink" p))
  | inr (Some (File _)) =>
      if path.trailingSeparator p
      then (st, Some (mkError ENOTDIR "unlink" p))
      else (delete (components p) st, None)
  end.

(** [fs.writeFile(path, data, callback)] with a string for [data], which
    is written in UTF-8.  [None]: the call throws, the path has a NUL
    character.  Otherwise the new state and the [err] handed to the
    callback ([None] for [null]). *)
Definition writeFile (st : state) (p : string) (data : jsstring)
  : option (state * option Error) :=
  if has_nul p then None else Some (write st p (utf8.encode data)).

(** [fs.unlink(path, callback)]; [None] when the call throws. *)
Definition unlink (st : state) (p : string)
  : option (state * option Error) :=
  if has_nul p then None else Some (remove st p).

(** The bytes of the file at [p]: [open(p, O_RDONLY)] and reading to
    the end, as [fs.readFile(p)] does. *)
Definition readFile (st : state) (p : string) : Error + string :=
  match lookup st p with
  | inl c => inl (mkError c "open" p)
  | inr None => inl (mkError ENOENT "open" p)
  | inr (Some Dir) => inl (mkError EISDIR "read" p)
  | inr (Some (File d)) =>
      if path.trailingSeparator p
      then inl (mkError ENOTDIR "open" p)
      else inr d
  end.

(** The text of the file at [p], as [fs.readFile(p, 'utf8')] gives it. *)
Definition readFileUtf8 (st : state) (p : string) : Error + jsstring :=
  match readFile st p with
  | inl err => inl err
  | inr d => inr (utf8.decode d)
  end.

(** [fs.existsSync(path)]: [false] on every error, the exception of
    [validatePath] included. *)
Definition existsSync (st : state) (p : string) : bool :=
  if has_nul p then false
  else
    match lookup st p with
    | inl _ => false
    | inr n => bool_decide (is_Some n)
    end.

(** [fs.mkdirSync(path)]: the new state, or what is thrown. *)
Definition mkdirSync (st : state) (p : string) : exception + state :=
  if has_nul p then inl (InvalidArgValue p)
  else
    match lookup st p with
    | inl c => inl (SystemError (mkError c "mkdir" p))
    | inr (Some _) => inl (SystemError (mkError EEXIST "mkdir" p))
    | inr None => inr (<[components p := Dir]> st)
    end.

End fs.

(** ** Express responses *)

(** The body of a response: [res.json({ message })], [res.json({ error })],
    or the page of Express's default error handler, which answers when a
    middleware passes an error to [next] or a handler throws. *)
Inductive body : Type :=
| Message (message : string)
| ErrorBody (error : string)
| DefaultErrorPage.

Record response : Type := mkResponse {
  status : nat;
  payload : body
}.

(** [res.json(b)]: status 200 unless [res.status] was called first. *)
Definition json (b : body) : response := mkResponse 200 b.

(** [res.status(code).json(b)]. *)
Definition status_json (code : nat) (b : body) : response := mkResponse code b.

(** ** multer's disk storage *)

Module multer.

(** A file part of the multipart request, as multer hands it to the
    storage callbacks: [file.originalname] and the bytes of its stream. *)
Record file : Type := mkFile {
  originalname : string;
  bytes : string
}.

(** The two callbacks given to [multer.diskStorage]. *)
Record DiskStorage : Type := mkDiskStorage {
  destination : file → string;
  filename : file → string
}.

(** [DiskStorage.prototype._handleFile]: the final path is
    [path.join(destination, filename)]; the part is piped into a write
    stream opened there, which stores its bytes as they are.  The stream
    fails on a path with a NUL character like on an error of [open]. *)
Definition finalPath (storage : DiskStorage) (f : file) : string :=
  path.join [destination storage f; filename storage f].

Definition handleFile (storage : DiskStorage) (st : fs.state) (f : file)
  : fs.state * option fs.exception :=
  let p := finalPath storage f in
  if fs.has_nul p then (st, Some (fs.InvalidArgValue p))
  else
    match fs.write st p (bytes f) with
    | (st', Some err) => (st', Some (fs.SystemError err))
    | (st', None) => (st', None)
    end.

(** [removeUploadedFiles]: after a failure, every file stored so far by
    this request is unlinked; errors of the unlinks are only recorded. *)
Definition removeUploadedFiles (st : fs.state) (stored : list string)
  : fs.state :=
  foldl (λ s p, fst (fs.remove s p)) st stored.

(** The middleware of [upload.array(field)] on the file parts of that
    field, in order: a part without a file name is skipped, each other
    part is stored; the first failure stops the request, removes what
    it stored and passes the error on. *)
Fixpoint array (storage : DiskStorage) (st : fs.state) (stored : list string)
  (files : list file) : fs.state * option fs.exception :=
  match files with
  | [] => (st, None)
  | f :: rest =>
      if decide (originalname f = "") then array storage st stored rest
      else
        match handleFile storage st f with
        | (st', None) =>
            array storage st' (stored ++ [finalPath storage f]) rest
        | (st', Some err) => (removeUploadedFiles st' stored, Some err)
        end
  end.

End multer.

(** ** The server *)

Section Server.

(** [__dirname], the directory of [server.js]. *)
Variable dirname : string.

(** [const BASE_DIR = path.join(__dirname, 'user_files')]. *)
Definition BASE_DIR : string := path.join [dirname; "user_files"].

(** The start of the process: [BASE_DIR] is created when it does not
    exist; [inl] is the exception that ends the process. *)
Definition startup (st : fs.state) : fs.exception + fs.state :=
  if negb (fs.existsSync st BASE_DIR) then fs.mkdirSync st BASE_DIR
  else inr st.

(** [multer.diskStorage({ destination, filename })]. *)
Definition storage : multer.DiskStorage :=
  multer.mkDiskStorage (λ _, BASE_DIR) (λ f, multer.originalname f).

(** [POST /upload]: the multer middleware, then the handler. *)
Definition upload (st : fs.state) (files : list multer.file)
  : fs.state * response :=
  match multer.array storage st [] files with
  | (st', Some _) => (st', mkResponse 500 DefaultErrorPage)
  | (st', None) => (st', json (Message "Files uploaded successfully!"))
  end.

(** [POST /create] with body [{ filename, content }].  When
    [fs.writeFile] throws, no callback runs and the default error
    handler of Express answers. *)
Definition create (st : fs.state) (filename : string) (content : jsstring)
  : fs.state * response :=
  let filePath := path.join [BASE_DIR; filename] in
  match fs.writeFile st filePath content with
  | None => (st, mkResponse 500 DefaultErrorPage)
  | Some (st', Some err) =>
      (st', status_json 500 (ErrorBody (fs.message err)))
  | Some (st', None) => (st', json (Message "File created successfully!"))
  end.

(** [POST /edit] with body [{ filename, content }]. *)
Definition edit (st : fs.state) (filename : string) (content : jsstring)
  : fs.state * response :=
  let filePath := path.join [BASE_DIR; filename] in
  match fs.writeFile st filePath content with
  | None => (st, mkResponse 500 DefaultErrorPage)
  | Some (st', Some err) =>
      (st', status_json 500 (ErrorBody (fs.message err)))
  | Some (st', None) => (st', json (Message "File edited successfully!"))
  end.

(** [POST /delete] with body [{ filename }]. *)
Definition delete_ (st : fs.state) (filename : string)
  : fs.state * response :=
  let filePath := path.join [BASE_DIR; filename] in
  match fs.unlink st filePath with
  | None => (st, mkResponse 500 DefaultErrorPage)
  | Some (st', Some err) =>
      (st', status_json 500 (ErrorBody (fs.message err)))
  | Some (st', None) => (st', json (Message "File deleted successfully!"))
  end.

(** A request to one of the four routes.  A file name is given by its
    bytes, a content by its code units. *)
Inductive request : Type :=
| Upload (files : list multer.file)
| Create (filename : string) (content : jsstring)
| Edit (filename : string) (content : jsstring)
| Delete (filename : string).

(** The router: [app.post] dispatches on the path of the request. *)
Definition handle (st : fs.state) (rq : request) : fs.state * response :=
  match rq with
  | Upload files => upload st files
  | Create filename content => create st filename content
  | Edit filename content => edit st filename content
  | Delete filename => delete_ st filename
  end.

(** A JSON body is at least as long as the strings it carries: every
    byte of a file name and every code unit of a content takes a byte
    of the body or more. *)
Definition least_length (rq : request) : N :=
  match rq with
  | Upload _ => 0
  | Create filename content | Edit filename content =>
      N.of_nat (String.length filename + length content)
  | Delete filename => N.of_nat (String.length filename)
  end.

(** [app.use(express.json())] in front of the router: a JSON body of
    more than 100kb is refused with status 413 and the default error
    handler answers; a multipart body is not looked at.  [length] is
    the number of bytes of the body as it was sent. *)
Definition json_limit : N := 102400.

Definition serve (st : fs.state) (length : N) (rq : request)
  : fs.state * response :=
  match rq with
  | Upload _ => handle st rq
  | _ =>
      if (json_limit <? N.max length (least_length rq))%N
      then (st, mkResponse 413 DefaultErrorPage)
      else handle st rq
  end.

(** The path a client-supplied name resolves to; the same expression in
    [/create], [/edit], [/delete] and, through [storage], in [/upload]. *)
Definition resolve (filename : string) : string :=
  path.join [BASE_DIR; filename].

(** A resolved path lies inside the storage root when the components of
    [BASE_DIR] are a prefix of its own. *)
Definition inside_root (p : string) : Prop :=
  fs.components BASE_DIR `prefix_of` fs.components p.

End Server.

(** Whether a response reports success. *)
Definition succeeded (r : response) : bool := Nat.eqb (status r) 200.

(** Whether a client-supplied name has a [..] segment. *)
Definition has_dotdot (filename : string) : bool :=
  bool_decide (".." ∈ path.split filename).

(** The route a request is posted to. *)
Definition route (rq : request) : string :=
  match rq with
  | Upload _ => "/upload"
  | Create _ _ => "/create"
  | Edit _ _ => "/edit"
  | Delete _ => "/delete"
  end.

(** The client-supplied names of a request. *)
Definition names (rq : request) : list string :=
  match rq with
  | Upload files => map multer.originalname files
  | Create filename _ | Edit filename _ | Delete filename => [filename]
  end.

(** A small disk used in the examples: the server lives in [/app], its
    storage root holds [a.txt], and [/etc/passwd] lies outside the root. *)
Definition disk : gmap (list string) fs.node :=
  <[ ["etc"; "passwd"] := fs.File "root" ]>
  (<[ ["etc"] := fs.Dir ]>
  (<[ ["user_files"] := fs.Dir ]>
  (<[ ["app"; "user_files"; "a.txt"] := fs.File "old" ]>
  (<[ ["app"; "user_files"] := fs.Dir ]>
  (<[ ["app"] := fs.Dir ]> ∅))))).

(** A segment: a string without separator. *)
Definition segment (s : string) : Prop := path.split s = [s].

(** A plain segment is a name: not empty, not [.], not [..]. *)
Definition plain (s : string) : Prop :=
  s ≠ "" ∧ s ≠ "." ∧ s ≠ ".." ∧ segment s.

(** ** The shape of the file system *)

(** The file system is a tree when every entry lies in a directory. *)
Definition well_formed (st : gmap (list string) fs.node) : Prop :=
  ∀ k x n, st !! (k ++ [x]) = Some n → fs.entry st k = Some fs.Dir.

(** The name that climbs out of the storage root, one [..] for each of
    its components, and then down the components [l]. *)
Definition climb (dirname : string) (l : list string) : string :=
  path.unsplit
    (replicate (length (fs.components (BASE_DIR dirname))) ".." ++ l).

(** ** The HTTP side: Express routing and axios *)

(** [const PORT = 5000]. *)
Definition PORT : nat := 5000.

(** The origin the server answers on once [app.listen(PORT)] has run, as
    the start-up message prints it. *)
Definition origin : string := "http://localhost:" +:+ pretty PORT.

(** A string member of a JSON body: a file name, given by its bytes, or
    a text, given by its code units. *)
Inductive member : Type :=
| Name (bytes : string)
| Text (units : jsstring).

(** The body of a POST request: a JSON object with string members, as
    [express.json()] parses it into [req.body], or a multipart form, a
    list of file parts each under its field name. *)
Inductive request_body : Type :=
| JsonBody (members : gmap string member)
| FormData (parts : list (string * multer.file)).

(** [s] without its prefix [pre], when it has that prefix. *)
Fixpoint strip_prefix (pre s : string) : option string :=
  match pre, s with
  | EmptyString, _ => Some s
  | String a pre', String b s' =>
      if decide (a = b) then strip_prefix pre' s' else None
  | String _ _, EmptyString => None
  end.

(** A response settles the promise of [axios.post]: fulfilled when the
    status passes the default [validateStatus] (2xx), rejected with the
    response otherwise. *)
Inductive settled : Type :=
| Fulfilled (r : response)
| Rejected (r : response).

Definition validateStatus (status : nat) : bool :=
  (200 <=? status) && (status <? 300).

Definition settle (r : response) : settled :=
  if validateStatus (status r) then Fulfilled r else Rejected r.

Section Http.

Variable dirname : string.

(** The routes registered with [app.post].  [/upload] takes the parts of
    the field [files]; [/create] and [/edit] read the members [filename]
    and [content] of the body, [/delete] reads [filename].  Requests of
    any other shape (another path, a member missing, a part under
    another field) are left out: [None]. *)
Definition app_post (st : fs.state) (url : string) (data : request_body)
  : option (fs.state * response) :=
  match data with
  | FormData parts =>
      if decide (url = "/upload") then
        if forallb (λ part, bool_decide (part.1 = "files")) parts
        then Some (upload dirname st (map snd parts))
        else None
      else None
  | JsonBody members =>
      if decide (url = "/create") then
        match members !! "filename", members !! "content" with
        | Some (Name filename), Some (Text content) =>
            Some (create dirname st filename content)
        | _, _ => None
        end
      else if decide (url = "/edit") then
        match members !! "filename", members !! "content" with
        | Some (Name filename), Some (Text content) =>
            Some (edit dirname st filename content)
        | _, _ => None
        end
      else if decide (url = "/delete") then
        match members !! "filename" with
        | Some (Name filename) => Some (delete_ dirname st filename)
        | _ => None
        end
      else None
  end.

(** [axios.post(url, data)] against the running server. *)
Definition axios_post (st : fs.state) (url : string) (data : request_body)
  : option (fs.state * settled) :=
  match strip_prefix origin url with
  | Some route =>
      match app_post st route data with
      | Some (st', r) => Some (st', settle r)
      | None => None
      end
  | None => None
  end.

End Http.

(** ** The client module imported by [App.js] *)

Module mcpClient.

(** [const BASE_URL = 'http://localhost:5000']. *)
Definition BASE_URL : string := "http://localhost:5000".

Section Calls.

Variable dirname : string.

(** [uploadFiles(files)]: every file is appended to the form under the
    field [files]. *)
Definition uploadFiles (st : fs.state) (files : list multer.file)
  : option (fs.state * settled) :=
  let formData := FormData (map (λ file, ("files", file)) files) in
  axios_post dirname st (BASE_URL +:+ "/upload") formData.

(** [createFile(filename, content)]. *)
Definition createFile (st : fs.state) (filename : string)
    (content : jsstring) : option (fs.state * settled) :=
  axios_post dirname st (BASE_URL +:+ "/create")
    (JsonBody (<["filename" := Name filename]>
                 (<["content" := Text content]> ∅))).

(** [editFile(filename, content)]. *)
Definition editFile (st : fs.state) (filename : string)
    (content : jsstring) : option (fs.state * settled) :=
  axios_post dirname st (BASE_URL +:+ "/edit")
    (JsonBody (<["filename" := Name filename]>
                 (<["content" := Text content]> ∅))).

(** [deleteFile(filename)]. *)
Definition deleteFile (st : fs.state) (filename : string)
  : option (fs.state * settled) :=
  axios_post dirname st (BASE_URL +:+ "/delete")
    (JsonBody (<["filename" := Name filename]> ∅)).

End Calls.

End mcpClient.

(** ** The page: [App.js] *)

Module App.

(** The state of the component: the three [useState] cells.  A selected
    file is given by the name and bytes of the part it is sent as. *)
Record state : Type := mkState {
  selectedFiles : list multer.file;
  filename : string;
  content : jsstring
}.

Section Handlers.

Variable dirname : string.

(** What [try { await call; alert(ok) } catch (err) { alert(failed) }]
    shows, with the file system the call leaves. *)
Definition alert_of (ok failed : string)
    (call : option (fs.state * settled)) : option (fs.state * string) :=
  match call with
  | Some (st', Fulfilled _) => Some (st', ok)
  | Some (st', Rejected _) => Some (st', failed)
  | None => None
  end.

Definition handleUpload (s : state) (st : fs.state)
  : option (fs.state * string) :=
  alert_of "✅ Folder uploaded successfully!" "❌ Upload failed."
    (mcpClient.uploadFiles dirname st (selectedFiles s)).

Definition handleCreate (s : state) (st : fs.state)
  : option (fs.state * string) :=
  alert_of "✅ File created successfully!" "❌ Create failed."
    (mcpClient.createFile dirname st (filename s) (content s)).

Definition handleEdit (s : state) (st : fs.state)
  : option (fs.state * string) :=
  alert_of "✅ File edited successfully!" "❌ Edit failed."
    (mcpClient.editFile dirname st (filename s) (content s)).

Definition handleDelete (s : state) (st : fs.state)
  : option (fs.state * string) :=
  alert_of "✅ File deleted successfully!" "❌ Delete failed."
    (mcpClient.deleteFile dirname st (filename s)).

End Handlers.

End App.

(** ** The 64-bit integers of [user_files/long.js] *)

Module Long.

Local Open Scope Z_scope.

(** The methods of [Long] that work on the two 32-bit halves alone.  An
    argument called [other], [addend] or [subtrahend] is a Long (the
    branch that first converts another kind of value with [fromValue] is
    not taken), and a shift count is an integer.

    JavaScript numbers that hold integers are integers here; the
    bitwise operators first bring their operands to 32 bits. *)
Definition ToInt32 (x : Z) : Z := (x + 2 ^ 31) mod 2 ^ 32 - 2 ^ 31.
Definition ToUint32 (x : Z) : Z := x mod 2 ^ 32.

(** [x << n], [x >> n], [x >>> n]: the shift count is taken modulo 32. *)
Definition shl (x n : Z) : Z := ToInt32 (ToInt32 x * 2 ^ (ToUint32 n mod 32)).
Definition shr (x n : Z) : Z := ToInt32 x / 2 ^ (ToUint32 n mod 32).
Definition shru (x n : Z) : Z := ToUint32 x / 2 ^ (ToUint32 n mod 32).

(** [x & y], [x | y], [x ^ y], [~x]. *)
Definition band (x y : Z) : Z := Z.land (ToInt32 x) (ToInt32 y).
Definition bor (x y : Z) : Z := Z.lor (ToInt32 x) (ToInt32 y).
Definition bxor (x y : Z) : Z := Z.lxor (ToInt32 x) (ToInt32 y).
Definition bnot (x : Z) : Z := Z.lnot (ToInt32 x).

(** A Long: the low and high 32 bits as signed integers, and the
    signedness flag. *)
Record Long : Type := mkLong {
  low : Z;
  high : Z;
  unsigned : bool
}.

(** The constructor: [this.low = low | 0; this.high = high | 0]. *)
Definition new (low high : Z) (unsigned : bool) : Long :=
  mkLong (bor low 0) (bor high 0) unsigned.

(** [Long.fromBits]. *)
Definition fromBits (lowBits highBits : Z) (unsigned : bool) : Long :=
  new lowBits highBits unsigned.

(** [ONE = fromInt(1)] and [MIN_VALUE = fromBits(0, 0x80000000|0, false)]. *)
Definition ONE : Long := fromBits 1 0 false.
Definition MIN_VALUE : Long := fromBits 0 (bor 0x80000000 0) false.

Definition toInt (this : Long) : Z :=
  if unsigned this then shru (low this) 0 else low this.

Definition getHighBits (this : Long) : Z := high this.
Definition getHighBitsUnsigned (this : Long) : Z := shru (high this) 0.
Definition getLowBits (this : Long) : Z := low this.
Definition getLowBitsUnsigned (this : Long) : Z := shru (low this) 0.

Definition isZero (this : Long) : bool :=
  (high this =? 0) && (low this =? 0).

Definition isNegative (this : Long) : bool :=
  negb (unsigned this) && (high this <? 0).

Definition isPositive (this : Long) : bool :=
  unsigned this || (0 <=? high this).

Definition isOdd (this : Long) : bool := band (low this) 1 =? 1.
Definition isEven (this : Long) : bool := band (low this) 1 =? 0.

Definition equals (this other : Long) : bool :=
  if negb (Bool.eqb (unsigned this) (unsigned other))
     && (shru (high this) 31 =? 1) && (shru (high other) 31 =? 1)
  then false
  else (high this =? high other) && (low this =? low other).

Definition notEquals (this other : Long) : bool := negb (equals this other).

Definition not (this : Long) : Long :=
  fromBits (bnot (low this)) (bnot (high this)) (unsigned this).

Definition add (this addend : Long) : Long :=
  let a48 := shru (high this) 16 in
  let a32 := band (high this) 0xFFFF in
  let a16 := shru (low this) 16 in
  let a00 := band (low this) 0xFFFF in
  let b48 := shru (high addend) 16 in
  let b32 := band (high addend) 0xFFFF in
  let b16 := shru (low addend) 16 in
  let b00 := band (low addend) 0xFFFF in
  let c00 := 0 + (a00 + b00) in
  let c16 := 0 + shru c00 16 in
  let c00 := band c00 0xFFFF in
  let c16 := c16 + (a16 + b16) in
  let c32 := 0 + shru c16 16 in
  let c16 := band c16 0xFFFF in
  let c32 := c32 + (a32 + b32) in
  let c48 := 0 + shru c32 16 in
  let c32 := band c32 0xFFFF in
  let c48 := c48 + (a48 + b48) in
  let c48 := band c48 0xFFFF in
  fromBits (bor (shl c16 16) c00) (bor (shl c48 16) c32) (unsigned this).

Definition negate (this : Long) : Long :=
  if negb (unsigned this) && equals this MIN_VALUE then MIN_VALUE
  else add (not this) ONE.

Definition subtract (this subtrahend : Long) : Long :=
  add this (negate subtrahend).

Definition compare (this other : Long) : Z :=
  if equals this other then 0
  else
    let thisNeg := isNegative this in
    let otherNeg := isNegative other in
    if thisNeg && negb otherNeg then -1
    else if negb thisNeg && otherNeg then 1
    else if negb (unsigned this) then
      (if isNegative (subtract this other) then -1 else 1)
    else if (shru (high this) 0 <? shru (high other) 0)
            || ((high other =? high this)
                && (shru (low this) 0 <? shru (low other) 0))
         then -1 else 1.

Definition lessThan (this other : Long) : bool := compare this other <? 0.
Definition lessThanOrEqual (this other : Long) : bool := compare this other <=? 0.
Definition greaterThan (this other : Long) : bool := 0 <? compare this other.
Definition greaterThanOrEqual (this other : Long) : bool := 0 <=? compare this other.

Definition and (this other : Long) : Long :=
  fromBits (band (low this) (low other)) (band (high this) (high other))
           (unsigned this).
Definition or (this other : Long) : Long :=
  fromBits (bor (low this) (low other)) (bor (high this) (high other))
           (unsigned this).
Definition xor (this other : Long) : Long :=
  fromBits (bxor (low this) (low other)) (bxor (high this) (high other))
           (unsigned this).

Definition shiftLeft (this : Long) (numBits : Z) : Long :=
  let numBits := band numBits 63 in
  if numBits =? 0 then this
  else if numBits <? 32 then
    fromBits (shl (low this) numBits)
             (bor (shl (high this) numBits) (shru (low this) (32 - numBits)))
             (unsigned this)
  else fromBits 0 (shl (low this) (numBits - 32)) (unsigned this).

Definition shiftRight (this : Long) (numBits : Z) : Long :=
  let numBits := band numBits 63 in
  if numBits =? 0 then this
  else if numBits <? 32 then
    fromBits (bor (shru (low this) numBits) (shl (high this) (32 - numBits)))
             (shr (high this) numBits) (unsigned this)
  else fromBits (shr (high this) (numBits - 32))
                (if 0 <=? high this then 0 else -1) (unsigned this).

Definition shiftRightUnsigned (this : Long) (numBits : Z) : Long :=
  let numBits := band numBits 63 in
  if numBits =? 0 then this
  else if numBits <? 32 then
    fromBits (bor (shru (low this) numBits) (shl (high this) (32 - numBits)))
             (shru (high this) numBits) (unsigned this)
  else if numBits =? 32 then fromBits (high this) 0 (unsigned this)
  else fromBits (shru (high this) (numBits - 32)) 0 (unsigned this).

Definition rotateLeft (this : Long) (numBits : Z) : Long :=
  let numBits := band numBits 63 in
  if numBits =? 0 then this
  else if numBits =? 32 then fromBits (high this) (low this) (unsigned this)
  else if numBits <? 32 then
    let b := 32 - numBits in
    fromBits (bor (shl (low this) numBits) (shru (high this) b))
             (bor (shl (high this) numBits) (shru (low this) b))
             (unsigned this)
  else
    let numBits := numBits - 32 in
    let b := 32 - numBits in
    fromBits (bor (shl (high this) numBits) (shru (low this) b))
             (bor (shl (low this) numBits) (shru (high this) b))
             (unsigned this).

Definition rotateRight (this : Long) (numBits : Z) : Long :=
  let numBits := band numBits 63 in
  if numBits =? 0 then this
  else if numBits =? 32 then fromBits (high this) (low this) (unsigned this)
  else if numBits <? 32 then
    let b := 32 - numBits in
    fromBits (bor (shl (high this) b) (shru (low this) numBits))
             (bor (shl (low this) b) (shru (high this) numBits))
             (unsigned this)
  else
    let numBits := numBits - 32 in
    let b := 32 - numBits in
    fromBits (bor (shl (low this) b) (shru (high this) numBits))
             (bor (shl (high this) b) (shru (low this) numBits))
             (unsigned this).

Definition toSigned (this : Long) : Long :=
  if negb (unsigned this) then this
  else fromBits (low this) (high this) false.

Definition toUnsigned (this : Long) : Long :=
  if unsigned this then this
  else fromBits (low this) (high this) true.

Definition toBytesLE (this : Long) : list Z :=
  let hi := high this in
  let lo := low this in
  [ band lo 0xff;
    band (shru lo 8) 0xff;
    band (shru lo 16) 0xff;
    shru lo 24;
    band hi 0xff;
    band (shru hi 8) 0xff;
    band (shru hi 16) 0xff;
    shru hi 24 ].

Definition toBytesBE (this : Long) : list Z :=
  let hi := high this in
  let lo := low this in
  [ shru hi 24;
    band (shru hi 16) 0xff;
    band (shru hi 8) 0xff;
    band hi 0xff;
    shru lo 24;
    band (shru lo 16) 0xff;
    band (shru lo 8) 0xff;
    band lo 0xff ].

Definition toBytes (this : Long) (le : bool) : list Z :=
  if le then toBytesLE this else toBytesBE this.

(** [bytes[i]]; a missing element is [undefined], which the bitwise
    operators read as 0. *)
Definition at_ (bytes : list Z) (i : nat) : Z := nth i bytes 0.

Definition fromBytesLE (bytes : list Z) (unsigned : bool) : Long :=
  new (bor (bor (bor (at_ bytes 0) (shl (at_ bytes 1) 8))
                (shl (at_ bytes 2) 16))
           (shl (at_ bytes 3) 24))
      (bor (bor (bor (at_ bytes 4) (shl (at_ bytes 5) 8))
                (shl (at_ bytes 6) 16))
           (shl (at_ bytes 7) 24))
      unsigned.

Definition fromBytesBE (bytes : list Z) (unsigned : bool) : Long :=
  new (bor (bor (bor (shl (at_ bytes 4) 24) (shl (at_ bytes 5) 16))
                (shl (at_ bytes 6) 8))
           (at_ bytes 7))
      (bor (bor (bor (shl (at_ bytes 0) 24) (shl (at_ bytes 1) 16))
                (shl (at_ bytes 2) 8))
           (at_ bytes 3))
      unsigned.

Definition fromBytes (bytes : list Z) (unsigned le : bool) : Long :=
  if le then fromBytesLE bytes unsigned else fromBytesBE bytes unsigned.

(** The number a Long stands for: its 64 bits read as an unsigned or as
    a two's complement integer, according to the flag. *)
Definition uvalue (x : Long) : Z := ToUint32 (high x) * 2 ^ 32 + ToUint32 (low x).
Definition svalue (x : Long) : Z := ToInt32 (high x) * 2 ^ 32 + ToUint32 (low x).
Definition value (x : Long) : Z := if unsigned x then uvalue x else svalue x.

(** A number brought into the range of the type: modulo [2 ^ 64], into
    [0 .. 2 ^ 64) when unsigned and into [- 2 ^ 63 .. 2 ^ 63) when not. *)
Definition wrap (unsigned : bool) (z : Z) : Z :=
  if unsigned then z mod 2 ^ 64 else (z + 2 ^ 63) mod 2 ^ 64 - 2 ^ 63.

(** The fields of every Long the constructor makes are 32-bit integers. *)
Definition int32 (x : Z) : Prop := - 2 ^ 31 <= x < 2 ^ 31.
Definition wf (x : Long) : Prop := int32 (low x) /\ int32 (high x).

(** An element of a byte array. *)
Definition byte (x : Z) : Prop := 0 <= x < 256.

End Long.

(** * Properties *)

(** ** [path.join] on concrete arguments *)

Example join_plain : path.join ["/srv/app/user_files"; "notes.txt"]
                     = "/srv/app/user_files/notes.txt".
Proof. reflexivity. Qed.

Example join_dotdot : path.join ["/srv/app/user_files"; "../../etc/passwd"]
                      = "/srv/etc/passwd".
Proof. reflexivity. Qed.

Example join_absolute_arg : path.join ["/srv/app/user_files"; "/etc/passwd"]
                            = "/srv/app/user_files/etc/passwd".
Proof. reflexivity. Qed.

Example join_trailing : path.join ["/srv/app/user_files"; "sub/"]
                        = "/srv/app/user_files/sub/".
Proof. reflexivity. Qed.

Example join_empty_name : path.join ["/srv/app/user_files"; ""]
                          = "/srv/app/user_files".
Proof. reflexivity. Qed.

Example join_above_root : path.join ["/a"; "../../../x"] = "/x".
Proof. reflexivity. Qed.

Example join_relative : path.join ["a"; "../../x/./y/"] = "../x/y/".
Proof. reflexivity. Qed.

(** ** Splitting and normalizing paths *)

Section PathFacts.

Implicit Types (p s : string) (l segs acc : list string).

Lemma split_nonempty p : path.split p ≠ [].
Proof.
  destruct p as [|c p]; cbn; [done|].
  destruct (decide (c = path.sep)); [done|].
  by destruct (path.split p).
Qed.

Lemma split_app_sep a b :
  path.split (a +:+ "/" +:+ b) = path.split a ++ path.split b.
Proof.
  induction a as [|c a IH]; [done|].
  change (String c a +:+ "/" +:+ b) with (String c (a +:+ "/" +:+ b)).
  cbn [path.split]. rewrite IH.
  destruct (decide (c = path.sep)); [done|].
  pose proof (split_nonempty a). by destruct (path.split a).
Qed.

Lemma split_segments p : Forall segment (path.split p).
Proof.
  induction p as [|c p IH]; cbn.
  - by repeat constructor.
  - destruct (decide (c = path.sep)) as [->|Hc].
    + by constructor.
    + pose proof (split_nonempty p).
      destruct (path.split p) as [|s rest]; [done|].
      inversion IH as [|? ? Hs Hrest]; subst.
      constructor; [|done].
      unfold segment in *. cbn. rewrite decide_False by done. by rewrite Hs.
Qed.

Lemma split_unsplit l :
  Forall segment l → l ≠ [] → path.split (path.unsplit l) = l.
Proof.
  induction 1 as [|s l Hs Hl IH]; [done|]. intros _.
  destruct l as [|s' l]; [done|].
  change (path.unsplit (s :: s' :: l))
    with (s +:+ "/" +:+ path.unsplit (s' :: l)).
  rewrite split_app_sep, Hs, IH; done.
Qed.

Lemma step_plain a acc s : plain s → path.step a acc s = s :: acc.
Proof.
  intros (? & ? & ? & _). unfold path.step.
  by rewrite !decide_False.
Qed.

Lemma fold_step_plain a l acc :
  Forall plain l → fold_left (path.step a) l acc = rev l ++ acc.
Proof.
  intros H. revert acc. induction H as [|s l Hs _ IH]; intros acc; [done|].
  cbn. rewrite step_plain, IH by done. by rewrite <- app_assoc.
Qed.

Lemma step_keeps_plain acc s :
  Forall plain acc → segment s → Forall plain (path.step false acc s).
Proof.
  intros Hacc Hs. unfold path.step.
  repeat case_decide; try done.
  - destruct acc as [|top rest]; [done|].
    case_decide; [done|]. by inversion Hacc.
  - by constructor.
Qed.

Lemma fold_keeps_plain l acc :
  Forall plain acc → Forall segment l →
  Forall plain (fold_left (path.step false) l acc).
Proof.
  intros Hacc Hl. revert acc Hacc.
  induction Hl as [|s l Hs _ IH]; intros acc Hacc; [done|].
  cbn. by apply IH, step_keeps_plain.
Qed.

Lemma normalizeString_plain p :
  Forall plain (path.normalizeString (path.split p) false).
Proof.
  unfold path.normalizeString. apply Forall_rev.
  apply fold_keeps_plain; [done|apply split_segments].
Qed.

Lemma fold_step_skips_empty a l acc :
  fold_left (path.step a) l acc
  = fold_left (path.step a) (filter (λ s, s ≠ "") l) acc.
Proof.
  revert acc. induction l as [|s l IH]; intros acc; [done|].
  rewrite filter_cons. case_decide as Hs.
  - cbn. apply IH.
  - subst s. cbn. apply IH.
Qed.

Lemma filter_plain l : Forall plain l → filter (λ s, s ≠ "") l = l.
Proof.
  induction 1 as [|s l Hs _ IH]; [done|].
  rewrite filter_cons, decide_True, IH; [done|apply Hs].
Qed.

Lemma plain_segments l : Forall plain l → Forall segment l.
Proof. intros H. eapply Forall_impl; [exact H|]. by intros s (_ & _ & _ & ?). Qed.

Lemma unsplit_plain_nonempty l :
  Forall plain l → l ≠ [] → path.unsplit l ≠ "".
Proof.
  intros H Hne. destruct H as [|s l (Hs & _) _]; [done|].
  destruct s as [|c s]; [done|]. by destruct l.
Qed.

(** The components of a normalized absolute path are the normalized
    segments of the path. *)
Lemma normalize_components p :
  path.isAbsolute p = true →
  fs.components (path.normalize p) = path.normalizeString (path.split p) false
  ∧ path.isAbsolute (path.normalize p) = true.
Proof.
  intros Habs. unfold path.normalize.
  rewrite decide_False by (by intros ->). rewrite Habs. cbn [negb].
  pose proof (normalizeString_plain p) as Hpl.
  set (l := path.normalizeString (path.split p) false) in *.
  destruct (decide (l = [])) as [Hl|Hl].
  - rewrite Hl. cbn. done.
  - rewrite decide_False by by apply unsplit_plain_nonempty.
    split; [|done].
    unfold fs.components.
    assert (path.split (path.unsplit l) = l) as Hsp
      by (by apply split_unsplit; [apply plain_segments|]).
    destruct (path.trailingSeparator p).
    + change (path.split ("/" +:+ (path.unsplit l +:+ "/")))
        with ("" :: path.split (path.unsplit l +:+ "/" +:+ "")).
      rewrite split_app_sep, Hsp. 
      rewrite filter_cons, decide_False by (by intros ?).
      rewrite filter_app, filter_plain by done. cbn. by rewrite app_nil_r.
    + change (path.split ("/" +:+ path.unsplit l))
        with ("" :: path.split (path.unsplit l)).
      rewrite Hsp, filter_cons, decide_False by (by intros ?).
      by apply filter_plain.
Qed.

End PathFacts.

Section ResolveFacts.

Variable dirname : string.
Hypothesis dirname_abs : path.isAbsolute dirname = true.

Lemma isAbsolute_append p q :
  path.isAbsolute p = true → path.isAbsolute (p +:+ q) = true.
Proof. by destruct p. Qed.

Lemma isAbsolute_nonempty p : path.isAbsolute p = true → p ≠ "".
Proof. by intros H ->. Qed.

Lemma join_pair p q :
  p ≠ "" →
  path.join [p; q]
  = path.normalize (if decide (q = "") then p else p +:+ "/" +:+ q).
Proof.
  intros Hp. unfold path.join.
  rewrite filter_cons, decide_True by done.
  rewrite filter_cons. destruct (decide (q = "")) as [->|Hq].
  - by rewrite decide_False by (by intros ?).
  - by rewrite decide_True by done.
Qed.

Lemma BASE_DIR_absolute : path.isAbsolute (BASE_DIR dirname) = true.
Proof.
  unfold BASE_DIR. rewrite join_pair by by apply isAbsolute_nonempty.
  rewrite decide_False by done.
  by apply normalize_components, isAbsolute_append.
Qed.

Lemma BASE_DIR_components :
  fs.components (BASE_DIR dirname)
  = path.normalizeString (path.split dirname ++ ["user_files"]) false.
Proof.
  unfold BASE_DIR. rewrite join_pair by by apply isAbsolute_nonempty.
  rewrite decide_False by done.
  destruct (normalize_components (dirname +:+ "/" +:+ "user_files"))
    as [-> _]; [by apply isAbsolute_append|].
  by rewrite split_app_sep.
Qed.

Lemma BASE_DIR_plain : Forall plain (fs.components (BASE_DIR dirname)).
Proof.
  rewrite BASE_DIR_components.
  change (path.split dirname ++ ["user_files"])
    with (path.split dirname ++ path.split "user_files").
  rewrite <- split_app_sep. apply normalizeString_plain.
Qed.

(** The storage root is never the root directory: its last component
    is [user_files]. *)
Lemma BASE_DIR_last :
  ∃ l, fs.components (BASE_DIR dirname) = l ++ ["user_files"].
Proof.
  rewrite BASE_DIR_components. unfold path.normalizeString.
  rewrite fold_left_app. cbn.
  exists (rev (fold_left (path.step false) (path.split dirname) [])).
  reflexivity.
Qed.

(** The components of a resolved name: the segments of the name are
    pushed, one after the other, onto the components of [BASE_DIR]. *)
Lemma resolve_components filename :
  fs.components (resolve dirname filename)
  = rev (fold_left (path.step false) (path.split filename)
           (rev (fs.components (BASE_DIR dirname)))).
Proof.
  pose proof BASE_DIR_absolute as Habs.
  assert (fold_left (path.step false) (path.split (BASE_DIR dirname)) []
          = rev (fs.components (BASE_DIR dirname))) as Hbase.
  { rewrite fold_step_skips_empty. fold (fs.components (BASE_DIR dirname)).
    rewrite fold_step_plain by apply BASE_DIR_plain. apply app_nil_r. }
  unfold resolve. rewrite join_pair by by apply isAbsolute_nonempty.
  destruct (decide (filename = "")) as [->|Hf].
  - destruct (normalize_components (BASE_DIR dirname)) as [-> _]; [done|].
    unfold path.normalizeString. by rewrite Hbase.
  - destruct (normalize_components (BASE_DIR dirname +:+ "/" +:+ filename))
      as [-> _]; [by apply isAbsolute_append|].
    unfold path.normalizeString.
    by rewrite split_app_sep, fold_left_app, Hbase.
Qed.

Lemma fold_step_no_dotdot a l acc :
  ".." ∉ l →
  fold_left (path.step a) l acc
  = rev (filter (λ s, s ≠ "" ∧ s ≠ ".") l) ++ acc.
Proof.
  revert acc. induction l as [|s l IH]; intros acc Hl; [done|].
  apply not_elem_of_cons in Hl as [Hs Hl].
  cbn [fold_left]. rewrite IH by done. rewrite filter_cons.
  unfold path.step. destruct (decide (s = "")) as [->|H1].
  { by rewrite decide_False by (by intros [? _]). }
  destruct (decide (s = ".")) as [->|H2].
  { by rewrite decide_False by (by intros [_ ?]). }
  rewrite decide_False by done. rewrite decide_True by done.
  cbn. by rewrite <- app_assoc.
Qed.

(** A name without [..] segment resolves inside the storage root. *)
Lemma resolve_inside_root filename :
  has_dotdot filename = false → inside_root dirname (resolve dirname filename).
Proof.
  intros Hdd. apply bool_decide_eq_false in Hdd.
  unfold inside_root. rewrite resolve_components.
  rewrite fold_step_no_dotdot by done.
  rewrite rev_app_distr, !rev_involutive.
  by eexists.
Qed.

(** A plain name resolves to an entry of the storage root itself. *)
Lemma resolve_plain filename :
  plain filename →
  fs.components (resolve dirname filename)
  = fs.components (BASE_DIR dirname) ++ [filename].
Proof.
  intros Hpl. rewrite resolve_components.
  destruct Hpl as (H1 & H2 & H3 & ->). cbn.
  unfold path.step. rewrite !decide_False by done.
  cbn. by rewrite rev_involutive.
Qed.

End ResolveFacts.

(** ** Trailing separators *)

Section Trailing.

Implicit Types (p a b s : string) (l : list string).

Lemma trailingSeparator_append a b :
  b ≠ "" → path.trailingSeparator (a +:+ b) = path.trailingSeparator b.
Proof.
  intros Hb. induction a as [|c a IH]; [done|].
  change (String c a +:+ b) with (String c (a +:+ b)).
  cbn [path.trailingSeparator]. rewrite IH.
  destruct (a +:+ b) eqn:E; [|done].
  destruct a; [done|discriminate].
Qed.

Lemma trailingSeparator_split p :
  path.trailingSeparator p = true → 2 ≤ length (path.split p).
Proof.
  induction p as [|c p IH]; [done|].
  cbn [path.trailingSeparator path.split].
  destruct p as [|c' p].
  - intros ->%bool_decide_eq_true. by rewrite decide_True.
  - intros H%IH. destruct (decide (c = path.sep)); [cbn [length]; lia|].
    destruct (path.split (String c' p)); cbn [length] in *; lia.
Qed.

Lemma segment_no_trailing s : segment s → path.trailingSeparator s = false.
Proof.
  intros Hs. destruct (path.trailingSeparator s) eqn:E; [|done].
  apply trailingSeparator_split in E. rewrite Hs in E. cbn in E. lia.
Qed.

Lemma append_assoc a b s : (a +:+ b) +:+ s = a +:+ (b +:+ s).
Proof.
  induction a as [|c a IH]; [done|].
  change ((String c a +:+ b) +:+ s) with (String c ((a +:+ b) +:+ s)).
  by rewrite IH.
Qed.

Lemma unsplit_snoc l s :
  l ≠ [] → path.unsplit (l ++ [s]) = path.unsplit l +:+ "/" +:+ s.
Proof.
  induction l as [|x l IH]; [done|]. intros _.
  destruct l as [|y l]; [done|].
  change (path.unsplit ((x :: y :: l) ++ [s]))
    with (x +:+ "/" +:+ path.unsplit ((y :: l) ++ [s])).
  rewrite IH by done.
  change (path.unsplit (x :: y :: l)) with (x +:+ "/" +:+ path.unsplit (y :: l)).
  by rewrite !append_assoc.
Qed.

End Trailing.

(** ** The file system calls *)

Section FsFacts.

Implicit Types (st : gmap (list string) fs.node) (p data : string).
Implicit Types (cwd segs k : list string).

(** Resolution of a path only looks at proper ancestors, which are
    shorter than the path itself: an update at a key at least as long
    is not seen. *)
Lemma descend_ext st1 st2 cwd segs :
  (∀ q, length q < length (cwd ++ segs) → st1 !! q = st2 !! q) →
  fs.descend st1 cwd segs = fs.descend st2 cwd segs.
Proof.
  revert cwd. induction segs as [|s rest IH]; intros cwd Hq; [done|].
  destruct rest as [|s' rest]; [done|].
  cbn [fs.descend]. destruct (fs.name_error s); [done|].
  rewrite (Hq (cwd ++ [s])).
  - destruct (st2 !! (cwd ++ [s])) as [[?|]|]; try done.
    apply IH. intros q Hl. apply Hq. by rewrite <- app_assoc in Hl.
  - rewrite !length_app. cbn. lia.
Qed.

(** Path resolution sees proper ancestors only. *)
Lemma walk_ext st1 st2 cwd segs :
  (∀ q, length q < length (cwd ++ segs) → st1 !! q = st2 !! q) →
  fs.walk st1 cwd segs = fs.walk st2 cwd segs.
Proof. intros H. unfold fs.walk. by rewrite (descend_ext st1 st2). Qed.

Lemma walk_insert_len st cwd segs k n :
  length (cwd ++ segs) ≤ length k →
  fs.walk (<[k := n]> st) cwd segs = fs.walk st cwd segs.
Proof.
  intros Hlen. apply walk_ext. intros q Hq.
  apply lookup_insert_ne. intros ->. lia.
Qed.

Lemma walk_delete_len st cwd segs k :
  length (cwd ++ segs) ≤ length k →
  fs.walk (delete k st) cwd segs = fs.walk st cwd segs.
Proof.
  intros Hlen. apply walk_ext. intros q Hq.
  apply lookup_delete_ne. intros ->. lia.
Qed.

(** What the result of a look-up tells. *)
Lemma lookup_inr st p n :
  fs.lookup st p = inr n ↔
  fs.resolves st p ∧ n = fs.entry st (fs.components p).
Proof.
  unfold fs.lookup, fs.resolves. cbv zeta.
  destruct (Nat.leb_spec fs.PATH_MAX (String.length p)).
  { split; [done|]. intros [[? _] _]. lia. }
  destruct (fs.walk st [] (fs.components p)).
  { split; [done|]. by intros [(_ & ? & _) _]. }
  destruct (fs.final_error (fs.components p)).
  { split; [done|]. by intros [(_ & _ & ?) _]. }
  split.
  - by intros [= <-].
  - by intros [_ ->].
Qed.

Lemma lookup_resolves st p :
  fs.resolves st p → fs.lookup st p = inr (fs.entry st (fs.components p)).
Proof. intros. by apply lookup_inr. Qed.

Lemma resolves_insert st p k n :
  length (fs.components p) ≤ length k →
  fs.resolves (<[k := n]> st) p ↔ fs.resolves st p.
Proof.
  intros Hlen. unfold fs.resolves. by rewrite walk_insert_len.
Qed.

Lemma resolves_delete st p k :
  length (fs.components p) ≤ length k →
  fs.resolves (delete k st) p ↔ fs.resolves st p.
Proof.
  intros Hlen. unfold fs.resolves. by rewrite walk_delete_len.
Qed.

(** When a write succeeds, and what it does then. *)
Lemma write_success_iff st p data st' :
  fs.write st p data = (st', None) ↔
  st' = <[fs.components p := fs.File data]> st
  ∧ fs.resolves st p
  ∧ path.trailingSeparator p = false
  ∧ fs.entry st (fs.components p) ≠ Some fs.Dir.
Proof.
  unfold fs.write, fs.resolves. cbv zeta.
  destruct (Nat.leb_spec fs.PATH_MAX (String.length p)).
  { split; [done|]. intros (_ & (? & _) & _). lia. }
  destruct (fs.walk st [] (fs.components p)).
  { split; [done|]. by intros (_ & (_ & ? & _) & _). }
  destruct (path.trailingSeparator p).
  { split; [done|]. by intros (_ & _ & ? & _). }
  destruct (fs.final_error (fs.components p)).
  { split; [done|]. by intros (_ & (_ & _ & ?) & _). }
  destruct (fs.entry st (fs.components p)) as [[?|]|].
  - split; [by intros [= <-]|by intros (-> & _)].
  - split; [done|]. by intros (_ & _ & _ & []).
  - split; [by intros [= <-]|by intros (-> & _)].
Qed.

(** What a successful write tells about the state before it. *)
Lemma write_success st p data st' :
  fs.write st p data = (st', None) →
  st' = <[fs.components p := fs.File data]> st
  ∧ fs.resolves st p
  ∧ path.trailingSeparator p = false
  ∧ fs.components p ≠ [].
Proof.
  intros (-> & Hr & Ht & Hd)%write_success_iff.
  do 3 (split; [done|]). intros E. by rewrite E in Hd.
Qed.

(** A write that [open] refuses changes nothing. *)
Lemma write_failure st p data st' err :
  fs.write st p data = (st', Some err) →
  st' = st ∧ fs.syscall err = "open" ∧ fs.epath err = p.
Proof.
  unfold fs.write. cbv zeta.
  destruct (fs.PATH_MAX <=? String.length p); [by intros [= <- <-]|].
  destruct (fs.walk st [] (fs.components p)); [by intros [= <- <-]|].
  destruct (path.trailingSeparator p); [by intros [= <- <-]|].
  destruct (fs.final_error (fs.components p)); [by intros [= <- <-]|].
  destruct (fs.entry st (fs.components p)) as [[?|]|]; try done;
    by intros [= <- <-].
Qed.

(** A write succeeds or fails whatever the bytes are. *)
Lemma write_any_data st p d1 d2 st1 :
  fs.write st p d1 = (st1, None) →
  fs.write st p d2 = (<[fs.components p := fs.File d2]> st, None).
Proof.
  intros (_ & ? & ? & ?)%write_success_iff. by apply write_success_iff.
Qed.

(** What a successful unlink tells about the state before it. *)
Lemma remove_success st p st' :
  fs.remove st p = (st', None) →
  st' = delete (fs.components p) st
  ∧ fs.resolves st p
  ∧ path.trailingSeparator p = false
  ∧ fs.components p ≠ []
  ∧ ∃ d, st !! fs.components p = Some (fs.File d).
Proof.
  unfold fs.remove.
  destruct (fs.lookup st p) as [c|[[d|]|]] eqn:Hl; try done.
  destruct (path.trailingSeparator p); [done|].
  intros [= <-]. apply lookup_inr in Hl as [Hr He].
  destruct (fs.components p) as [|s segs] eqn:Hc; [done|].
  cbn [fs.entry] in He. eauto 6.
Qed.

(** A failing unlink changes nothing. *)
Lemma remove_failure st p st' err :
  fs.remove st p = (st', Some err) →
  st' = st ∧ fs.syscall err = "unlink" ∧ fs.epath err = p.
Proof.
  unfold fs.remove.
  destruct (fs.lookup st p) as [c|[[d|]|]]; try (by intros [= <- <-]).
  destruct (path.trailingSeparator p); [|done]. by intros [= <- <-].
Qed.

(** The root apart, the node at a path is what the map holds there. *)
Lemma entry_snoc st l x : fs.entry st (l ++ [x]) = st !! (l ++ [x]).
Proof. by destruct l. Qed.

Lemma entry_insert st segs n :
  segs ≠ [] → fs.entry (<[segs := n]> st) segs = Some n.
Proof. intros. destruct segs; [done|]. apply lookup_insert_eq. Qed.

Lemma entry_delete st segs :
  segs ≠ [] → fs.entry (delete segs st) segs = None.
Proof. intros. destruct segs; [done|]. apply lookup_delete_eq. Qed.

(** Reading back the bytes just written. *)
Lemma read_after_write st p data st' :
  fs.write st p data = (st', None) → fs.readFile st' p = inr data.
Proof.
  intros (-> & Hr & Ht & Hne)%write_success.
  unfold fs.readFile.
  rewrite lookup_resolves by (by apply resolves_insert).
  by rewrite entry_insert, Ht.
Qed.

(** A write over a file just written succeeds, and only the second
    content remains. *)
Lemma write_after_write st p d1 d2 st1 :
  fs.write st p d1 = (st1, None) →
  fs.write st1 p d2 = (<[fs.components p := fs.File d2]> st, None).
Proof.
  intros (-> & Hr & Ht & Hne)%write_success.
  apply write_success_iff. rewrite insert_insert_eq.
  split; [done|]. split; [by apply resolves_insert|]. split; [done|].
  by rewrite entry_insert.
Qed.

(** Once a file is removed, nothing is at its path. *)
Lemma lookup_after_remove st p st' :
  fs.remove st p = (st', None) → fs.lookup st' p = inr None.
Proof.
  intros (-> & Hr & _ & Hne & _)%remove_success.
  rewrite lookup_resolves by (by apply resolves_delete).
  by rewrite entry_delete.
Qed.

(** Distinct error codes give distinct messages. *)
Lemma message_code e1 e2 :
  fs.message e1 = fs.message e2 → fs.code e1 = fs.code e2.
Proof.
  destruct e1 as [[] s1 p1], e2 as [[] s2 p2]; cbn; intros H; try done;
    by inversion H.
Qed.

(** Resolution of a path with one more component. *)
Lemma descend_snoc st cwd l x s :
  last l = Some s →
  fs.descend st cwd (l ++ [x])
  = match fs.descend st cwd l with
    | Some c => Some c
    | None =>
        match fs.name_error s with
        | Some c => Some c
        | None =>
            match st !! (cwd ++ l) with
            | Some fs.Dir => None
            | Some (fs.File _) => Some fs.ENOTDIR
            | None => Some fs.ENOENT
            end
        end
    end.
Proof.
  revert cwd. induction l as [|y l IH]; intros cwd Hs; [done|].
  destruct l as [|y' l].
  - cbn in Hs. injection Hs as ->. cbn.
    destruct (fs.name_error s); [done|].
    by destruct (st !! (cwd ++ [s])) as [[?|]|].
  - change (last (y :: y' :: l)) with (last (y' :: l)) in Hs.
    change (fs.descend st cwd ((y :: y' :: l) ++ [x]))
      with (match fs.name_error y with
            | Some c => Some c
            | None =>
                match st !! (cwd ++ [y]) with
                | Some fs.Dir => fs.descend st (cwd ++ [y]) ((y' :: l) ++ [x])
                | Some (fs.File _) => Some fs.ENOTDIR
                | None => Some fs.ENOENT
                end
            end).
    change (fs.descend st cwd (y :: y' :: l))
      with (match fs.name_error y with
            | Some c => Some c
            | None =>
                match st !! (cwd ++ [y]) with
                | Some fs.Dir => fs.descend st (cwd ++ [y]) (y' :: l)
                | Some (fs.File _) => Some fs.ENOTDIR
                | None => Some fs.ENOENT
                end
            end).
    destruct (fs.name_error y); [done|].
    destruct (st !! (cwd ++ [y])) as [[?|]|]; try done.
    rewrite IH by done. by rewrite <- app_assoc.
Qed.

(** When resolution reaches the last component, its parent is a
    directory. *)
Lemma walk_parent st l x :
  fs.walk st [] (l ++ [x]) = None → fs.entry st l = Some fs.Dir.
Proof.
  unfold fs.walk. destruct (fs.PATH_MAX <=? _); [done|].
  destruct (last l) as [s|] eqn:Hs.
  - rewrite (descend_snoc _ _ _ _ s) by done. cbn [app].
    destruct (fs.descend st [] l); [done|].
    destruct (fs.name_error s); [done|].
    destruct l; [done|]. cbn [fs.entry].
    by destruct (st !! _) as [[?|]|].
  - apply last_None in Hs as ->. done.
Qed.

(** The length of a path bounds the length of its components, for an
    absolute path. *)
Lemma path_length_split p :
  fs.path_length (path.split p) = S (String.length p).
Proof.
  unfold fs.path_length. induction p as [|c p IH]; [done|].
  cbn [path.split]. destruct (decide (c = path.sep)).
  - cbn. by rewrite IH.
  - pose proof (split_nonempty p).
    destruct (path.split p) as [|s rest]; [done|].
    cbn in *. lia.
Qed.

Lemma path_length_filter l :
  fs.path_length (filter (λ s, s ≠ "") l) ≤ fs.path_length l.
Proof.
  unfold fs.path_length. induction l as [|s l IH]; [done|].
  rewrite filter_cons. case_decide; cbn; lia.
Qed.

Lemma path_length_components p :
  path.isAbsolute p = true →
  fs.path_length (fs.components p) ≤ String.length p.
Proof.
  intros Habs. destruct p as [|c p]; [done|].
  cbn in Habs. apply bool_decide_eq_true in Habs as ->.
  unfold fs.components. cbn [path.split].
  rewrite decide_True by done. rewrite filter_cons, decide_False by (by intros ?).
  pose proof (path_length_filter (path.split p)).
  rewrite path_length_split in *. cbn. lia.
Qed.

End FsFacts.

(** ** UTF-8 *)

Section Utf8Facts.

Local Open Scope Z_scope.
Import utf8.

Ltac cmp :=
  repeat (match goal with
          | |- context [?a <? ?b] => destruct (Z.ltb_spec a b); try lia
          | |- context [?a <=? ?b] => destruct (Z.leb_spec a b); try lia
          | |- context [?a =? ?b] => destruct (Z.eqb_spec a b); try lia
          end; cbn [andb]).

Lemma decodeFrom_ascii cp lo up b rest :
  0 <= b < 0x80 →
  decodeFrom cp 0 lo up (b :: rest) = b :: decodeFrom 0 0 0x80 0xBF rest.
Proof. intros. cbn [decodeFrom]. by cmp. Qed.

Lemma decodeFrom_lead2 cp lo up b rest :
  0xC2 <= b <= 0xDF →
  decodeFrom cp 0 lo up (b :: rest) = decodeFrom (b - 0xC0) 1 0x80 0xBF rest.
Proof. intros. cbn [decodeFrom]. by cmp. Qed.

Lemma decodeFrom_lead3 cp lo up b rest :
  0xE0 <= b <= 0xEF →
  decodeFrom cp 0 lo up (b :: rest)
  = decodeFrom (b - 0xE0) 2 (if b =? 0xE0 then 0xA0 else 0x80)
      (if b =? 0xED then 0x9F else 0xBF) rest.
Proof.
  intros. cbn [decodeFrom].
  destruct (Z.ltb_spec b 0x80); [lia|].
  destruct (Z.leb_spec 0xC2 b); [|lia]. destruct (Z.leb_spec b 0xDF); [lia|].
  destruct (Z.leb_spec 0xE0 b); [|lia]. destruct (Z.leb_spec b 0xEF); [|lia].
  done.
Qed.

Lemma decodeFrom_lead4 cp lo up b rest :
  0xF0 <= b <= 0xF4 →
  decodeFrom cp 0 lo up (b :: rest)
  = decodeFrom (b - 0xF0) 3 (if b =? 0xF0 then 0x90 else 0x80)
      (if b =? 0xF4 then 0x8F else 0xBF) rest.
Proof.
  intros. cbn [decodeFrom].
  destruct (Z.ltb_spec b 0x80); [lia|].
  destruct (Z.leb_spec 0xC2 b); [|lia]. destruct (Z.leb_spec b 0xDF); [lia|].
  destruct (Z.leb_spec 0xE0 b); [|lia]. destruct (Z.leb_spec b 0xEF); [lia|].
  destruct (Z.leb_spec 0xF0 b); [|lia]. destruct (Z.leb_spec b 0xF4); [|lia].
  done.
Qed.

Lemma decodeFrom_continue cp n lo up b rest :
  lo <= b <= up →
  decodeFrom cp (S (S n)) lo up (b :: rest)
  = decodeFrom (cp * 64 + (b - 0x80)) (S n) 0x80 0xBF rest.
Proof.
  intros. cbn [decodeFrom].
  destruct (Z.leb_spec lo b); [|lia]. destruct (Z.leb_spec b up); [|lia].
  done.
Qed.

Lemma decodeFrom_last cp lo up b rest :
  lo <= b <= up →
  decodeFrom cp 1 lo up (b :: rest)
  = units (cp * 64 + (b - 0x80)) ++ decodeFrom 0 0 0x80 0xBF rest.
Proof.
  intros. cbn [decodeFrom].
  destruct (Z.leb_spec lo b); [|lia]. destruct (Z.leb_spec b up); [|lia].
  done.
Qed.

(** Decoding the bytes of a scalar value gives its code units. *)
Lemma decode_codePoint cp rest :
  scalar cp →
  decodeFrom 0 0 0x80 0xBF (encodeCodePoint cp ++ rest)
  = units cp ++ decodeFrom 0 0 0x80 0xBF rest.
Proof.
  intros Hcp. unfold encodeCodePoint, scalar in *.
  destruct (Z.ltb_spec cp 0x80).
  { cbn [app]. rewrite decodeFrom_ascii by lia. unfold units. by cmp. }
  destruct (Z.ltb_spec cp 0x800).
  { cbn [app].
    rewrite decodeFrom_lead2 by (Z.div_mod_to_equations; lia).
    rewrite decodeFrom_last by (Z.div_mod_to_equations; lia).
    do 2 f_equal. Z.div_mod_to_equations; lia. }
  destruct (Z.ltb_spec cp 0x10000).
  { cbn [app].
    rewrite decodeFrom_lead3 by (Z.div_mod_to_equations; lia).
    rewrite decodeFrom_continue
      by (cmp; Z.div_mod_to_equations; lia).
    rewrite decodeFrom_last by (Z.div_mod_to_equations; lia).
    do 2 f_equal. Z.div_mod_to_equations; lia. }
  cbn [app].
  rewrite decodeFrom_lead4 by (Z.div_mod_to_equations; lia).
  rewrite decodeFrom_continue by (cmp; Z.div_mod_to_equations; lia).
  rewrite decodeFrom_continue by (Z.div_mod_to_equations; lia).
  rewrite decodeFrom_last by (Z.div_mod_to_equations; lia).
  do 2 f_equal. Z.div_mod_to_equations; lia.
Qed.

Lemma units_scalar cp : 0 <= cp < 0x10000 → units cp = [cp].
Proof. intros. unfold units. by cmp. Qed.

Lemma units_pair u v :
  isLead u = true → isTrail v = true →
  units (0x10000 + (u - 0xD800) * 1024 + (v - 0xDC00)) = [u; v].
Proof.
  unfold isLead, isTrail, units.
  intros [?%Z.leb_le ?%Z.leb_le]%andb_prop [?%Z.leb_le ?%Z.leb_le]%andb_prop.
  destruct (Z.ltb_spec (0x10000 + (u - 0xD800) * 1024 + (v - 0xDC00)) 0x10000);
    [lia|].
  f_equal; [|f_equal]; Z.div_mod_to_equations; lia.
Qed.

(** Decoding undoes encoding on well-formed strings. *)
Lemma decode_encodeUnits s :
  isWellFormed s = true →
  decodeFrom 0 0 0x80 0xBF (encodeUnits s) = s.
Proof.
  assert (∀ n s, (length s ≤ n)%nat → isWellFormed s = true →
                 decodeFrom 0 0 0x80 0xBF (encodeUnits s) = s) as H;
    [|by apply (H (length s))].
  clear s. induction n as [|n IH]; intros s Hlen.
  { destruct s; [done|]. cbn in Hlen. lia. }
  destruct s as [|u rest]; [done|]. cbn [isWellFormed encodeUnits].
  destruct (isLead u) eqn:Hu.
  - destruct rest as [|v rest]; [done|].
    intros [Hv Hwf]%andb_prop. rewrite Hv.
    rewrite decode_codePoint, units_pair by
      (done || (unfold scalar, isLead, isTrail in *;
                apply andb_prop in Hu as [?%Z.leb_le ?%Z.leb_le];
                apply andb_prop in Hv as [?%Z.leb_le ?%Z.leb_le]; lia)).
    cbn [app]. rewrite IH; [done| |done]. cbn in Hlen. lia.
  - destruct (isTrail u) eqn:Ht; [done|].
    intros [[H0%Z.leb_le H1%Z.ltb_lt]%andb_prop Hwf]%andb_prop.
    rewrite decode_codePoint, units_scalar.
    + cbn [app]. rewrite IH; [done| |done]. cbn in Hlen. lia.
    + lia.
    + unfold scalar, isLead, isTrail in *.
      apply andb_false_iff in Hu. apply andb_false_iff in Ht.
      rewrite !Z.leb_gt in Hu, Ht. lia.
Qed.

Lemma toZ_ofZ n : 0 <= n < 256 → toZ (ofZ n) = n.
Proof.
  intros. unfold toZ, ofZ. rewrite N_ascii_embedding by lia. lia.
Qed.

Lemma encodeCodePoint_bytes cp :
  0 <= cp < 0x110000 → Forall (λ b, 0 <= b < 256) (encodeCodePoint cp).
Proof.
  intros. unfold encodeCodePoint. cmp;
    repeat constructor; Z.div_mod_to_equations; lia.
Qed.

Lemma encodeUnits_bytes s :
  isWellFormed s = true → Forall (λ b, 0 <= b < 256) (encodeUnits s).
Proof.
  assert (∀ n s, (length s ≤ n)%nat → isWellFormed s = true →
                 Forall (λ b, 0 <= b < 256) (encodeUnits s)) as H;
    [|by apply (H (length s))].
  clear s. induction n as [|n IH]; intros s Hlen.
  { destruct s; [by constructor|]. cbn in Hlen. lia. }
  destruct s as [|u rest]; [by constructor|]. cbn [isWellFormed encodeUnits].
  destruct (isLead u) eqn:Hu.
  - destruct rest as [|v rest]; [done|].
    intros [Hv Hwf]%andb_prop. rewrite Hv.
    apply Forall_app. split.
    + apply encodeCodePoint_bytes. unfold isLead, isTrail in *.
      apply andb_prop in Hu as [?%Z.leb_le ?%Z.leb_le];
      apply andb_prop in Hv as [?%Z.leb_le ?%Z.leb_le]; lia.
    + apply IH; [|done]. cbn in Hlen. lia.
  - destruct (isTrail u) eqn:Ht; [done|].
    intros [[H0%Z.leb_le H1%Z.ltb_lt]%andb_prop Hwf]%andb_prop.
    apply Forall_app. split.
    + apply encodeCodePoint_bytes. lia.
    + apply IH; [|done]. cbn in Hlen. lia.
Qed.

Lemma map_toZ_ofZ l :
  Forall (λ b, 0 <= b < 256) l → map toZ (map ofZ l) = l.
Proof.
  induction 1 as [|b l Hb _ IH]; [done|]. cbn. by rewrite toZ_ofZ, IH.
Qed.

(** A well-formed string is what its UTF-8 encoding decodes to. *)
Lemma decode_encode (s : jsstring) :
  isWellFormed s = true → decode (encode s) = s.
Proof.
  intros Hwf. unfold decode, encode.
  rewrite list_ascii_of_string_of_list_ascii.
  rewrite map_toZ_ofZ by by apply encodeUnits_bytes.
  by apply decode_encodeUnits.
Qed.

(** Well-formed strings can be put one after the other. *)
Lemma wellFormed_app s1 s2 :
  isWellFormed s1 = true →
  isWellFormed (s1 ++ s2) = isWellFormed s2
  ∧ encodeUnits (s1 ++ s2) = encodeUnits s1 ++ encodeUnits s2.
Proof.
  assert (∀ n s1, (length s1 ≤ n)%nat → isWellFormed s1 = true →
                  isWellFormed (s1 ++ s2) = isWellFormed s2
                  ∧ encodeUnits (s1 ++ s2)
                    = encodeUnits s1 ++ encodeUnits s2) as H;
    [|by apply (H (length s1))].
  clear s1. induction n as [|n IH]; intros s1 Hlen.
  { destruct s1; [done|]. cbn in Hlen. lia. }
  destruct s1 as [|u rest]; [done|].
  cbn [app isWellFormed encodeUnits].
  destruct (isLead u) eqn:Hu.
  - destruct rest as [|v rest]; [done|].
    intros [Hv Hwf]%andb_prop. cbn [app]. rewrite Hv. cbn [andb].
    destruct (IH rest) as [-> ->]; [cbn in Hlen; lia|done|].
    by rewrite app_assoc.
  - destruct (isTrail u) eqn:Ht; [done|].
    intros [Hr Hwf]%andb_prop. rewrite Hr. cbn [andb].
    destruct (IH rest) as [-> ->]; [cbn in Hlen; lia|done|].
    by rewrite app_assoc.
Qed.

Lemma string_of_list_ascii_app (l1 l2 : list ascii) :
  string_of_list_ascii (l1 ++ l2)
  = (string_of_list_ascii l1 +:+ string_of_list_ascii l2)%string.
Proof.
  induction l1 as [|a l1 IH]; [done|].
  cbn [app string_of_list_ascii]. by rewrite IH.
Qed.

Lemma valid_append (a b : string) :
  valid a → valid b → valid (a +:+ b)%string.
Proof.
  intros (sa & Ha & <-) (sb & Hb & <-). exists (sa ++ sb).
  destruct (wellFormed_app sa sb Ha) as [Hwf He]. split; [congruence|].
  unfold encode. by rewrite He, map_app, string_of_list_ascii_app.
Qed.

End Utf8Facts.

(** ** The routes, one at a time *)

Section RouteFacts.

Variable dirname : string.
Implicit Types (st : gmap (list string) fs.node).
Implicit Types (filename : string) (content : jsstring).

(** The file system a route leaves behind. *)
Lemma create_fst st filename content :
  fst (create dirname st filename content)
  = if fs.has_nul (resolve dirname filename) then st
    else fst (fs.write st (resolve dirname filename) (utf8.encode content)).
Proof.
  unfold create, fs.writeFile. fold (resolve dirname filename).
  destruct (fs.has_nul _); [done|].
  by destruct (fs.write st _ _) as [st' [err|]].
Qed.

Lemma edit_fst st filename content :
  fst (edit dirname st filename content)
  = if fs.has_nul (resolve dirname filename) then st
    else fst (fs.write st (resolve dirname filename) (utf8.encode content)).
Proof.
  unfold edit, fs.writeFile. fold (resolve dirname filename).
  destruct (fs.has_nul _); [done|].
  by destruct (fs.write st _ _) as [st' [err|]].
Qed.

Lemma delete_fst st filename :
  fst (delete_ dirname st filename)
  = if fs.has_nul (resolve dirname filename) then st
    else fst (fs.remove st (resolve dirname filename)).
Proof.
  unfold delete_, fs.unlink. fold (resolve dirname filename).
  destruct (fs.has_nul _); [done|].
  by destruct (fs.remove st _) as [st' [err|]].
Qed.

(** [/create] writes the resolved path and answers with its fixed
    message, or relays the error of the write, or, when [fs.writeFile]
    throws, leaves the answer to the default error handler; in the last
    two cases nothing is changed. *)
Lemma create_cases st filename content :
  (fs.has_nul (resolve dirname filename) = false
   ∧ fs.write st (resolve dirname filename) (utf8.encode content)
     = (fst (create dirname st filename content), None)
   ∧ snd (create dirname st filename content)
     = json (Message "File created successfully!"))
  ∨ (fs.has_nul (resolve dirname filename) = false
     ∧ ∃ err,
         fs.write st (resolve dirname filename) (utf8.encode content)
         = (st, Some err)
         ∧ create dirname st filename content
           = (st, status_json 500 (ErrorBody (fs.message err))))
  ∨ (fs.has_nul (resolve dirname filename) = true
     ∧ create dirname st filename content
       = (st, mkResponse 500 DefaultErrorPage)).
Proof.
  unfold create, fs.writeFile. fold (resolve dirname filename).
  destruct (fs.has_nul _); [by right; right|].
  destruct (fs.write st _ _) as [st' [err|]] eqn:Hw; cbn.
  - right. left. split; [done|]. exists err.
    by apply write_failure in Hw as (-> & _).
  - by left.
Qed.

Lemma edit_cases st filename content :
  (fs.has_nul (resolve dirname filename) = false
   ∧ fs.write st (resolve dirname filename) (utf8.encode content)
     = (fst (edit dirname st filename content), None)
   ∧ snd (edit dirname st filename content)
     = json (Message "File edited successfully!"))
  ∨ (fs.has_nul (resolve dirname filename) = false
     ∧ ∃ err,
         fs.write st (resolve dirname filename) (utf8.encode content)
         = (st, Some err)
         ∧ edit dirname st filename content
           = (st, status_json 500 (ErrorBody (fs.message err))))
  ∨ (fs.has_nul (resolve dirname filename) = true
     ∧ edit dirname st filename content
       = (st, mkResponse 500 DefaultErrorPage)).
Proof.
  unfold edit, fs.writeFile. fold (resolve dirname filename).
  destruct (fs.has_nul _); [by right; right|].
  destruct (fs.write st _ _) as [st' [err|]] eqn:Hw; cbn.
  - right. left. split; [done|]. exists err.
    by apply write_failure in Hw as (-> & _).
  - by left.
Qed.

Lemma delete_cases st filename :
  (fs.has_nul (resolve dirname filename) = false
   ∧ fs.remove st (resolve dirname filename)
     = (fst (delete_ dirname st filename), None)
   ∧ snd (delete_ dirname st filename)
     = json (Message "File deleted successfully!"))
  ∨ (fs.has_nul (resolve dirname filename) = false
     ∧ ∃ err,
         fs.remove st (resolve dirname filename) = (st, Some err)
         ∧ delete_ dirname st filename
           = (st, status_json 500 (ErrorBody (fs.message err))))
  ∨ (fs.has_nul (resolve dirname filename) = true
     ∧ delete_ dirname st filename = (st, mkResponse 500 DefaultErrorPage)).
Proof.
  unfold delete_, fs.unlink. fold (resolve dirname filename).
  destruct (fs.has_nul _); [by right; right|].
  destruct (fs.remove st _) as [st' [err|]] eqn:Hu; cbn.
  - right. left. split; [done|]. exists err.
    by apply remove_failure in Hu as (-> & _).
  - by left.
Qed.

(** [/upload] answers with its fixed message, or with the page of the
    default error handler. *)
Lemma upload_cases st files :
  snd (upload dirname st files) = json (Message "Files uploaded successfully!")
  ∨ snd (upload dirname st files) = mkResponse 500 DefaultErrorPage.
Proof.
  unfold upload.
  destruct (multer.array _ st [] files) as [st' [err|]]; cbn; auto.
Qed.

(** When a route answers with success. *)
Lemma create_succeeded st filename content :
  succeeded (snd (create dirname st filename content)) = true →
  fs.has_nul (resolve dirname filename) = false
  ∧ fs.write st (resolve dirname filename) (utf8.encode content)
    = (fst (create dirname st filename content), None)
  ∧ snd (create dirname st filename content)
    = json (Message "File created successfully!").
Proof.
  intros Hok. destruct (create_cases st filename content)
    as [H|[(_ & err & _ & Hc)|(_ & Hc)]]; [done|by rewrite Hc in Hok..].
Qed.

Lemma edit_succeeded st filename content :
  succeeded (snd (edit dirname st filename content)) = true →
  fs.has_nul (resolve dirname filename) = false
  ∧ fs.write st (resolve dirname filename) (utf8.encode content)
    = (fst (edit dirname st filename content), None)
  ∧ snd (edit dirname st filename content)
    = json (Message "File edited successfully!").
Proof.
  intros Hok. destruct (edit_cases st filename content)
    as [H|[(_ & err & _ & Hc)|(_ & Hc)]]; [done|by rewrite Hc in Hok..].
Qed.

Lemma delete_succeeded st filename :
  succeeded (snd (delete_ dirname st filename)) = true →
  fs.has_nul (resolve dirname filename) = false
  ∧ fs.remove st (resolve dirname filename)
    = (fst (delete_ dirname st filename), None)
  ∧ snd (delete_ dirname st filename)
    = json (Message "File deleted successfully!").
Proof.
  intros Hok. destruct (delete_cases st filename)
    as [H|[(_ & err & _ & Hc)|(_ & Hc)]]; [done|by rewrite Hc in Hok..].
Qed.

End RouteFacts.

(** ** Paths as strings *)

Section StringFacts.

Implicit Types (p a b s : string) (l : list string).

Lemma length_append a b :
  String.length (a +:+ b) = String.length a + String.length b.
Proof.
  induction a as [|c a IH]; [done|].
  change (String c a +:+ b) with (String c (a +:+ b)). cbn. by rewrite IH.
Qed.

Lemma has_nul_append a b :
  fs.has_nul (a +:+ b) = fs.has_nul a || fs.has_nul b.
Proof.
  induction a as [|c a IH]; [done|].
  change (String c a +:+ b) with (String c (a +:+ b)). cbn.
  by rewrite IH, orb_assoc.
Qed.

Lemma length_unsplit l :
  l ≠ [] → S (String.length (path.unsplit l)) = fs.path_length l.
Proof.
  unfold fs.path_length.
  induction l as [|s l IH]; [done|]. intros _.
  destruct l as [|s' l]; [cbn; lia|].
  change (path.unsplit (s :: s' :: l))
    with (s +:+ "/" +:+ path.unsplit (s' :: l)).
  rewrite !length_append. cbn [sum_list_with] in *.
  specialize (IH ltac:(done)). cbn [String.length]. lia.
Qed.

Lemma has_nul_unsplit l :
  fs.has_nul (path.unsplit l) = existsb fs.has_nul l.
Proof.
  induction l as [|s l IH]; [done|].
  destruct l as [|s' l]; [cbn; by rewrite orb_false_r|].
  change (path.unsplit (s :: s' :: l))
    with (s +:+ "/" +:+ path.unsplit (s' :: l)).
  rewrite !has_nul_append, IH. done.
Qed.

Lemma unsplit_segments_trailing l :
  Forall (λ s, s ≠ "" ∧ segment s) l → l ≠ [] →
  path.trailingSeparator (path.unsplit l) = false.
Proof.
  intros Hl Hne. destruct (exists_last Hne) as (l' & x & ->).
  apply Forall_app in Hl as [_ Hx]. apply Forall_singleton in Hx as [Hx Hs].
  destruct l' as [|y l'].
  - by apply segment_no_trailing.
  - rewrite unsplit_snoc by done.
    rewrite <- !append_assoc, trailingSeparator_append by done.
    by apply segment_no_trailing.
Qed.

Lemma normalize_trailing p :
  path.trailingSeparator p = true →
  path.trailingSeparator (path.normalize p) = true.
Proof.
  intros Ht. unfold path.normalize.
  rewrite decide_False by (by intros ->). rewrite Ht.
  set (body := path.unsplit _).
  case_decide; [by destruct (path.isAbsolute p)|].
  assert (path.trailingSeparator (body +:+ "/") = true) as Hb
    by (by rewrite trailingSeparator_append).
  destruct (path.isAbsolute p); [|done].
  by rewrite trailingSeparator_append by (by destruct body).
Qed.

(** A normalized absolute path is the separator followed by its
    components, with the separator between them. *)
Lemma normalize_string p :
  path.isAbsolute p = true →
  path.trailingSeparator p = false →
  path.normalize p = "/" +:+ path.unsplit (fs.components (path.normalize p)).
Proof.
  intros Habs Ht.
  destruct (normalize_components p Habs) as [-> _].
  unfold path.normalize.
  rewrite decide_False by (by intros ->). rewrite Habs, Ht. cbn [negb].
  case_decide as Hb; [by rewrite Hb|done].
Qed.

Lemma normalize_plain p :
  path.isAbsolute p = true → Forall plain (fs.components (path.normalize p)).
Proof.
  intros Habs. destruct (normalize_components p Habs) as [-> _].
  apply normalizeString_plain.
Qed.

Lemma normalize_no_trailing p :
  path.isAbsolute p = true →
  path.trailingSeparator p = false →
  fs.components (path.normalize p) ≠ [] →
  path.trailingSeparator (path.normalize p) = false.
Proof.
  intros Habs Ht Hne. rewrite normalize_string by done.
  pose proof (normalize_plain p Habs) as Hpl.
  rewrite trailingSeparator_append by by apply unsplit_plain_nonempty.
  apply unsplit_segments_trailing; [|done].
  eapply Forall_impl; [exact Hpl|]. by intros s (? & _ & _ & ?).
Qed.

End StringFacts.

Section ResolvedPaths.

Variable dirname : string.
Hypothesis dirname_abs : path.isAbsolute dirname = true.
Implicit Types (st : gmap (list string) fs.node).

(** A resolved path is a normalized absolute path. *)
Lemma resolve_normalize filename :
  ∃ q, path.isAbsolute q = true ∧ resolve dirname filename = path.normalize q.
Proof.
  pose proof (BASE_DIR_absolute dirname dirname_abs) as Habs.
  unfold resolve. rewrite join_pair by by apply isAbsolute_nonempty.
  case_decide; eexists; (split; [|reflexivity]); [done|].
  by apply isAbsolute_append.
Qed.

Lemma resolve_absolute filename :
  path.isAbsolute (resolve dirname filename) = true.
Proof.
  destruct (resolve_normalize filename) as (q & Hq & ->).
  by apply normalize_components.
Qed.

(** The string a name resolves to, when it does not end with the
    separator. *)
Lemma resolve_string filename :
  path.trailingSeparator (resolve dirname filename) = false →
  resolve dirname filename
  = "/" +:+ path.unsplit (fs.components (resolve dirname filename)).
Proof.
  destruct (resolve_normalize filename) as (q & Hq & ->). intros Ht.
  apply normalize_string; [done|].
  destruct (path.trailingSeparator q) eqn:E; [|done].
  apply normalize_trailing in E. congruence.
Qed.

Lemma resolve_length filename :
  path.trailingSeparator (resolve dirname filename) = false →
  fs.components (resolve dirname filename) ≠ [] →
  String.length (resolve dirname filename)
  = fs.path_length (fs.components (resolve dirname filename)).
Proof.
  intros Ht Hne. rewrite (resolve_string filename Ht) at 1.
  rewrite length_append. cbn [String.length]. by apply length_unsplit.
Qed.

Lemma resolve_has_nul filename :
  path.trailingSeparator (resolve dirname filename) = false →
  fs.has_nul (resolve dirname filename)
  = existsb fs.has_nul (fs.components (resolve dirname filename)).
Proof.
  intros Ht. rewrite (resolve_string filename Ht) at 1.
  by rewrite has_nul_append, has_nul_unsplit.
Qed.

Lemma resolve_path_length filename :
  fs.path_length (fs.components (resolve dirname filename))
  ≤ String.length (resolve dirname filename).
Proof. apply path_length_components, resolve_absolute. Qed.

(** The empty name resolves to the storage root. *)
Lemma resolve_empty_components :
  fs.components (resolve dirname "") = fs.components (BASE_DIR dirname).
Proof. rewrite resolve_components by done. cbn. apply rev_involutive. Qed.

Lemma BASE_DIR_trailing :
  path.trailingSeparator (BASE_DIR dirname) = false.
Proof.
  pose proof (BASE_DIR_last dirname dirname_abs) as [l0 Hl0].
  revert Hl0. unfold BASE_DIR.
  rewrite join_pair by by apply isAbsolute_nonempty.
  rewrite decide_False by done. intros Hl0.
  apply normalize_no_trailing.
  - by apply isAbsolute_append.
  - by rewrite <- append_assoc, trailingSeparator_append.
  - rewrite Hl0. by destruct l0.
Qed.

Lemma resolve_empty_trailing :
  path.trailingSeparator (resolve dirname "") = false.
Proof.
  pose proof resolve_empty_components as Hc.
  pose proof (BASE_DIR_last dirname dirname_abs) as [l0 Hl0].
  pose proof (BASE_DIR_absolute dirname dirname_abs) as Habs.
  revert Hc. unfold resolve. rewrite join_pair by by apply isAbsolute_nonempty.
  rewrite decide_True by done. intros Hc.
  apply normalize_no_trailing; [done|apply BASE_DIR_trailing|].
  rewrite Hc, Hl0. by destruct l0.
Qed.

(** The path a plain name resolves to has no trailing separator. *)
Lemma resolve_plain_trailing filename :
  plain filename → path.trailingSeparator (resolve dirname filename) = false.
Proof.
  intros Hpl. pose proof (resolve_plain dirname dirname_abs filename Hpl) as Hc.
  destruct Hpl as (Hne & _ & _ & Hseg).
  pose proof (BASE_DIR_absolute dirname dirname_abs) as Habs.
  revert Hc. unfold resolve.
  rewrite join_pair by by apply isAbsolute_nonempty.
  rewrite decide_False by done. intros Hc.
  apply normalize_no_trailing.
  - by apply isAbsolute_append.
  - rewrite <- append_assoc, trailingSeparator_append by done.
    by apply segment_no_trailing.
  - rewrite Hc. by destruct (fs.components (BASE_DIR dirname)).
Qed.

(** The names path resolution has looked up on its way. *)
Lemma descend_names st cwd l x :
  fs.descend st cwd (l ++ [x]) = None →
  Forall (λ s, fs.name_error s = None) l.
Proof.
  revert cwd. induction l as [|y l IH]; intros cwd; [done|].
  assert (fs.descend st cwd ((y :: l) ++ [x])
          = match fs.name_error y with
            | Some c => Some c
            | None =>
                match st !! (cwd ++ [y]) with
                | Some fs.Dir => fs.descend st (cwd ++ [y]) (l ++ [x])
                | Some (fs.File _) => Some fs.ENOTDIR
                | None => Some fs.ENOENT
                end
            end) as -> by (by destruct l).
  destruct (fs.name_error y) eqn:Hy; [done|].
  destruct (st !! (cwd ++ [y])) as [[?|]|]; try done.
  intros H%IH. by constructor.
Qed.

Lemma walk_names st l x :
  fs.walk st [] (l ++ [x]) = None →
  Forall (λ s, fs.name_error s = None) l
  ∧ fs.path_length (l ++ [x]) < fs.PATH_MAX.
Proof.
  unfold fs.walk. cbn [app].
  destruct (Nat.leb_spec fs.PATH_MAX (fs.path_length (l ++ [x]))); [done|].
  intros Hd%descend_names. done.
Qed.

Lemma name_error_has_nul s :
  fs.name_error s = None → fs.has_nul s = false.
Proof.
  unfold fs.name_error. destruct (fs.NAME_MAX <? String.length s); [done|].
  by destruct (fs.has_nul s).
Qed.

Lemma names_no_nul l :
  Forall (λ s, fs.name_error s = None) l → existsb fs.has_nul l = false.
Proof.
  induction 1 as [|s l Hs _ IH]; [done|].
  cbn. by rewrite (name_error_has_nul s), IH.
Qed.

(** One more component at the end of a path that resolves, below a
    directory. *)
Lemma walk_snoc_dir st l s x :
  fs.walk st [] (l ++ [s]) = None →
  fs.name_error s = None →
  st !! (l ++ [s]) = Some fs.Dir →
  fs.path_length ((l ++ [s]) ++ [x]) < fs.PATH_MAX →
  fs.walk st [] ((l ++ [s]) ++ [x]) = None.
Proof.
  unfold fs.walk. cbn [app]. intros Hw Hs Hd Hlen.
  destruct (fs.PATH_MAX <=? fs.path_length (l ++ [s])); [done|].
  destruct (Nat.leb_spec fs.PATH_MAX (fs.path_length ((l ++ [s]) ++ [x])));
    [lia|].
  rewrite (descend_snoc _ _ _ _ s) by apply last_snoc.
  cbn [app]. by rewrite Hw, Hs, Hd.
Qed.

(** With the storage root in place, the root itself and every plain
    name in it resolve. *)
Lemma root_resolves st :
  fs.walk st [] (fs.components (BASE_DIR dirname)) = None →
  fs.resolves st (resolve dirname "")
  ∧ fs.has_nul (resolve dirname "") = false.
Proof.
  intros Hw. pose proof resolve_empty_components as Hc.
  pose proof resolve_empty_trailing as Ht.
  destruct (BASE_DIR_last dirname dirname_abs) as [l0 Hl0].
  rewrite Hl0 in *. apply walk_names in Hw as Hn. destruct Hn as [Hn Hlen].
  split; [split; [|split]|].
  - rewrite resolve_length by (done || (rewrite Hc; by destruct l0)).
    by rewrite Hc.
  - by rewrite Hc.
  - rewrite Hc. unfold fs.final_error. by rewrite last_snoc.
  - rewrite resolve_has_nul, Hc, existsb_app, names_no_nul by done. done.
Qed.

Lemma plain_resolves st filename :
  plain filename →
  fs.name_error filename = None →
  String.length (resolve dirname filename) < fs.PATH_MAX →
  fs.walk st [] (fs.components (BASE_DIR dirname)) = None →
  st !! fs.components (BASE_DIR dirname) = Some fs.Dir →
  fs.resolves st (resolve dirname filename)
  ∧ fs.has_nul (resolve dirname filename) = false.
Proof.
  intros Hpl Hname Hlen Hw Hd.
  pose proof (resolve_plain dirname dirname_abs filename Hpl) as Hc.
  pose proof (resolve_plain_trailing filename Hpl) as Ht.
  pose proof (resolve_path_length filename) as Hpl'.
  destruct (BASE_DIR_last dirname dirname_abs) as [l0 Hl0].
  rewrite Hl0 in *. apply walk_names in Hw as Hn. destruct Hn as [Hn _].
  split; [split; [|split]|].
  - done.
  - rewrite Hc. apply walk_snoc_dir; try done. rewrite <- Hc. lia.
  - rewrite Hc. unfold fs.final_error. by rewrite last_snoc.
  - rewrite resolve_has_nul, Hc, !existsb_app, names_no_nul by done.
    cbn. by rewrite (name_error_has_nul filename).
Qed.

(** With the storage root in place, [/create] of a plain name that is
    not too long succeeds unless a directory of that name is in the
    way. *)
Lemma create_plain_succeeds st filename content :
  plain filename →
  fs.name_error filename = None →
  String.length (resolve dirname filename) < fs.PATH_MAX →
  fs.walk st [] (fs.components (BASE_DIR dirname)) = None →
  st !! fs.components (BASE_DIR dirname) = Some fs.Dir →
  st !! (fs.components (BASE_DIR dirname) ++ [filename]) ≠ Some fs.Dir →
  create dirname st filename content
  = (<[fs.components (BASE_DIR dirname) ++ [filename]
       := fs.File (utf8.encode content)]> st,
     json (Message "File created successfully!")).
Proof.
  intros Hpl Hname Hlen Hw Hd Hn.
  destruct (plain_resolves st filename) as [Hr Hnul]; try done.
  assert (fs.write st (resolve dirname filename) (utf8.encode content)
          = (<[fs.components (resolve dirname filename)
               := fs.File (utf8.encode content)]> st, None)) as Hwr.
  { apply write_success_iff. split; [done|]. split; [done|].
    split; [by apply resolve_plain_trailing|].
    rewrite resolve_plain by done. by rewrite entry_snoc. }
  unfold create, fs.writeFile. fold (resolve dirname filename).
  rewrite Hnul, Hwr. by rewrite resolve_plain.
Qed.

End ResolvedPaths.

(** ** Create, Edit and the round trip *)

(** Reading a text that was written as UTF-8. *)
Lemma read_text_after_write (st st' : gmap (list string) fs.node)
    (p : string) (content : jsstring) :
  fs.write st p (utf8.encode content) = (st', None) →
  fs.readFile st' p = inr (utf8.encode content)
  ∧ (utf8.isWellFormed content = true → fs.readFileUtf8 st' p = inr content).
Proof.
  intros Hr%read_after_write. split; [done|].
  intros Hwf. unfold fs.readFileUtf8. by rewrite Hr, decode_encode.
Qed.







(** C6.  [/create] and [/edit] are the same operation: on every state,
    name and content they leave the same file system behind, and their
    responses are either the very same failure or the two success
    responses, which differ only in the wording of the message. *)
Theorem create_edit_same dirname st filename content :
  fst (create dirname st filename content)
  = fst (edit dirname st filename content)
  ∧ (snd (create dirname st filename content)
     = snd (edit dirname st filename content)
     ∨ (snd (create dirname st filename content)
        = json (Message "File created successfully!")
        ∧ snd (edit dirname st filename content)
          = json (Message "File edited successfully!"))).
Proof.
  unfold create, edit.
  destruct (fs.writeFile st _ content) as [[st' [err|]]|]; cbn; auto.
Qed.

(** ** Upload *)

(** C9.  An upload without any file part goes through the same handler:
    nothing is written and the response is the success response, the one
    every upload that does not fail gets. *)
Theorem upload_empty_batch dirname st :
  upload dirname st [] = (st, json (Message "Files uploaded successfully!"))
  ∧ ∀ st' files,
      snd (upload dirname st' files) = snd (upload dirname st [])
      ∨ snd (upload dirname st' files) = mkResponse 500 DefaultErrorPage.
Proof.
  split; [reflexivity|].
  intros st' files. cbn. apply upload_cases.
Qed.

(** C7, as the spec has it, fails: a batch of one file and a batch of two
    files, both stored (the disk grows by one and by two entries), get the
    very same response, whose message carries no count. *)
Lemma upload_count_not_reported :
  snd (upload "/app" disk [multer.mkFile "x.txt" "X"])
  = json (Message "Files uploaded successfully!")
  ∧ snd (upload "/app" disk
           [multer.mkFile "x.txt" "X"; multer.mkFile "y.txt" "Y"])
    = json (Message "Files uploaded successfully!")
  ∧ size (fst (upload "/app" disk [multer.mkFile "x.txt" "X"]))
    = size disk + 1
  ∧ size (fst (upload "/app" disk
                 [multer.mkFile "x.txt" "X"; multer.mkFile "y.txt" "Y"]))
    = size disk + 2.
Proof. repeat split; vm_compute; reflexivity. Qed.

(** C7, amended.  A successful upload of a non-empty batch answers with
    status 200 and the fixed message [Files uploaded successfully!],
    whatever the number of files. *)
Theorem upload_success_message dirname st files :
  files ≠ [] →
  succeeded (snd (upload dirname st files)) = true →
  snd (upload dirname st files) = json (Message "Files uploaded successfully!").
Proof.
  intros _ Hok.
  destruct (upload_cases dirname st files) as [H|H]; [done|].
  by rewrite H in Hok.
Qed.

Lemma upload_success_message_witness :
  snd (upload "/app" disk [multer.mkFile "x.txt" "X"])
  = json (Message "Files uploaded successfully!").
Proof.
  apply (upload_success_message "/app" disk [multer.mkFile "x.txt" "X"]).
  - discriminate.
  - vm_compute; reflexivity.
Defined.

(** ** Responses *)

(** C10.  Two requests to the same route that both succeed get the same
    response, whatever names and contents they carry and whatever the
    state of the disk. *)
Theorem success_message_fixed dirname st1 st2 rq1 rq2 :
  route rq1 = route rq2 →
  succeeded (snd (handle dirname st1 rq1)) = true →
  succeeded (snd (handle dirname st2 rq2)) = true →
  snd (handle dirname st1 rq1) = snd (handle dirname st2 rq2).
Proof.
  destruct rq1 as [fs1|f1 c1|f1 c1|f1], rq2 as [fs2|f2 c2|f2 c2|f2];
    try discriminate; intros _; cbn [handle]; intros H1 H2.
  - destruct (upload_cases dirname st1 fs1) as [E1|E1];
      destruct (upload_cases dirname st2 fs2) as [E2|E2];
      rewrite ?E1, ?E2 in *; done.
  - apply create_succeeded in H1 as (_ & _ & ->).
    by apply create_succeeded in H2 as (_ & _ & ->).
  - apply edit_succeeded in H1 as (_ & _ & ->).
    by apply edit_succeeded in H2 as (_ & _ & ->).
  - apply delete_succeeded in H1 as (_ & _ & ->).
    by apply delete_succeeded in H2 as (_ & _ & ->).
Qed.

Lemma success_message_fixed_witness :
  snd (handle "/app" disk (Create "notes.txt" "hello"))
  = snd (handle "/app" ∅ (Create "../../motd" "other")).
Proof.
  apply (success_message_fixed "/app" disk ∅
           (Create "notes.txt" "hello") (Create "../../motd" "other"));
    vm_compute; reflexivity.
Defined.

(** ** Failures *)

(** Why path resolution stops: at a missing ancestor, at an ancestor
    that is a regular file, or at a name that is too long. *)
Lemma descend_error (st : gmap (list string) fs.node) cwd segs c :
  fs.descend st cwd segs = Some c →
  c = fs.ENOENT
  ∨ (c = fs.ENOTDIR
     ∧ ∃ q d, q `prefix_of` segs ∧ q ≠ segs
              ∧ st !! (cwd ++ q) = Some (fs.File d))
  ∨ (c = fs.ENAMETOOLONG
     ∧ ∃ s, s ∈ segs ∧ fs.NAME_MAX < String.length s).
Proof.
  revert cwd. induction segs as [|s rest IH]; intros cwd; [done|].
  destruct rest as [|s' rest]; [done|].
  cbn [fs.descend]. unfold fs.name_error at 1.
  destruct (Nat.ltb_spec fs.NAME_MAX (String.length s)).
  { intros [= <-]. right. right. split; [done|]. exists s.
    split; [apply list_elem_of_here|done]. }
  destruct (fs.has_nul s); [intros [= <-]; by left|].
  destruct (st !! (cwd ++ [s])) as [[d|]|] eqn:Hs.
  - intros [= <-]. right. left. split; [done|]. exists [s], d.
    split; [by apply prefix_cons, prefix_nil|done].
  - intros [?|[(-> & q & d & Hq & Hne & Hl)|(-> & x & Hx & Hlen)]]%IH.
    + by left.
    + right. left. split; [done|]. exists (s :: q), d.
      split; [by apply prefix_cons|]. split; [congruence|].
      by rewrite <- app_assoc in Hl.
    + right. right. split; [done|]. exists x.
      split; [by apply list_elem_of_further|done].
  - intros [= <-]. by left.
Qed.

(** The errors of a look-up, with what brings them about. *)
Lemma lookup_error (st : gmap (list string) fs.node) (p : string) c :
  path.isAbsolute p = true →
  fs.lookup st p = inl c →
  c = fs.ENOENT
  ∨ (c = fs.ENOTDIR
     ∧ ∃ q d, q `prefix_of` fs.components p ∧ q ≠ fs.components p
              ∧ st !! q = Some (fs.File d))
  ∨ (c = fs.ENAMETOOLONG
     ∧ (fs.PATH_MAX ≤ String.length p
        ∨ ∃ s, s ∈ fs.components p ∧ fs.NAME_MAX < String.length s)).
Proof.
  intros Habs. unfold fs.lookup. cbv zeta.
  destruct (Nat.leb_spec fs.PATH_MAX (String.length p)).
  { intros [= <-]. right. right. split; [done|]. by left. }
  unfold fs.walk. cbn [app].
  pose proof (path_length_components p Habs).
  destruct (Nat.leb_spec fs.PATH_MAX (fs.path_length (fs.components p)));
    [lia|].
  destruct (fs.descend st [] (fs.components p)) as [c'|] eqn:Hd.
  { intros [= <-].
    apply descend_error in Hd as [?|[(? & ?)|(? & ?)]]; auto. }
  unfold fs.final_error.
  destruct (last (fs.components p)) as [s|] eqn:Hl; [|done].
  unfold fs.name_error.
  destruct (Nat.ltb_spec fs.NAME_MAX (String.length s)).
  { intros [= <-]. right. right. split; [done|]. right. exists s.
    split; [|done]. apply last_Some in Hl as [l' ->].
    apply elem_of_app. right. apply list_elem_of_here. }
  destruct (fs.has_nul s); [|done]. intros [= <-]. by left.
Qed.







(** ** Which paths a request touches *)

Section Frame.

Implicit Types (st : gmap (list string) fs.node) (p data : string).
Implicit Types (k : list string).

Lemma write_frame st p data k :
  k ≠ fs.components p → fst (fs.write st p data) !! k = st !! k.
Proof.
  intros Hk. destruct (fs.write st p data) as [st' [err|]] eqn:Hw; cbn.
  - by apply write_failure in Hw as (-> & _).
  - apply write_success in Hw as (-> & _). by rewrite lookup_insert_ne.
Qed.

Lemma remove_frame st p k :
  k ≠ fs.components p → fst (fs.remove st p) !! k = st !! k.
Proof.
  intros Hk. destruct (fs.remove st p) as [st' [err|]] eqn:Hu; cbn.
  - by apply remove_failure in Hu as (-> & _).
  - apply remove_success in Hu as (-> & _). by rewrite lookup_delete_ne.
Qed.

Lemma removeUploadedFiles_frame st stored k :
  (∀ p, p ∈ stored → k ≠ fs.components p) →
  multer.removeUploadedFiles st stored !! k = st !! k.
Proof.
  unfold multer.removeUploadedFiles.
  revert st. induction stored as [|p stored IH]; intros st Hk; [done|].
  cbn. rewrite IH by (intros q Hq; apply Hk; by right).
  apply remove_frame, Hk. by left.
Qed.

(** Storing a part: the write of its bytes at the final path, unless
    the path is refused. *)
Lemma handleFile_success storage st f st' :
  multer.handleFile storage st f = (st', None) →
  fs.has_nul (multer.finalPath storage f) = false
  ∧ fs.write st (multer.finalPath storage f) (multer.bytes f) = (st', None).
Proof.
  unfold multer.handleFile. cbv zeta.
  destruct (fs.has_nul _); [done|].
  destruct (fs.write st _ _) as [st1 [err|]]; [done|]. by intros [= <-].
Qed.

Lemma handleFile_fst storage st f :
  fst (multer.handleFile storage st f)
  = if fs.has_nul (multer.finalPath storage f) then st
    else fst (fs.write st (multer.finalPath storage f) (multer.bytes f)).
Proof.
  unfold multer.handleFile. cbv zeta.
  destruct (fs.has_nul _); [done|].
  by destruct (fs.write st _ _) as [st1 [err|]].
Qed.

Lemma handleFile_frame storage st f k :
  k ≠ fs.components (multer.finalPath storage f) →
  fst (multer.handleFile storage st f) !! k = st !! k.
Proof.
  intros Hk. rewrite handleFile_fst.
  destruct (fs.has_nul _); [done|]. by apply write_frame.
Qed.

Lemma array_frame storage st stored files k :
  (∀ p, p ∈ stored → k ≠ fs.components p) →
  (∀ f, f ∈ files → k ≠ fs.components (multer.finalPath storage f)) →
  fst (multer.array storage st stored files) !! k = st !! k.
Proof.
  revert st stored. induction files as [|f files IH];
    intros st stored Hs Hf; [done|].
  cbn [multer.array].
  assert (∀ f', f' ∈ files →
            k ≠ fs.components (multer.finalPath storage f')) as Hf'
    by (intros f' ?; apply Hf; by right).
  case_decide; [by apply IH|].
  pose proof (handleFile_frame storage st f k (Hf f (list_elem_of_here _ _)))
    as Hw.
  destruct (multer.handleFile storage st f) as [st' [err|]]; cbn in Hw |- *.
  - by rewrite removeUploadedFiles_frame.
  - rewrite IH; [done| |done].
    intros p [Hp| ->%list_elem_of_singleton]%elem_of_app; [by apply Hs|].
    apply Hf. by left.
Qed.

(** A request touches nothing but the paths its names resolve to. *)
Lemma handle_frame (dirname : string) st rq k :
  (∀ name, name ∈ names rq → k ≠ fs.components (resolve dirname name)) →
  fst (handle dirname st rq) !! k = st !! k.
Proof.
  destruct rq as [files|f c|f c|f]; cbn [handle names]; intros Hk.
  - unfold upload.
    pose proof (array_frame (storage dirname) st [] files k) as Hfr.
    destruct (multer.array _ st [] files) as [st' [err|]]; cbn in *;
      apply Hfr; try (by intros ? ?%elem_of_nil);
      intros f' Hf'; apply Hk, list_elem_of_fmap; by exists f'.
  - rewrite create_fst. destruct (fs.has_nul _); [done|].
    apply write_frame, Hk. by left.
  - rewrite edit_fst. destruct (fs.has_nul _); [done|].
    apply write_frame, Hk. by left.
  - rewrite delete_fst. destruct (fs.has_nul _); [done|].
    apply remove_frame, Hk. by left.
Qed.

End Frame.

(** ** Confinement to the storage root *)

(** C1, as the spec has it, fails: the name [../../etc/passwd] is not
    rejected.  [/create] answers with success and overwrites
    [/etc/passwd], outside the storage root [/app/user_files]; [/delete]
    removes it. *)
Lemma traversal_not_rejected :
  has_dotdot "../../etc/passwd" = true
  ∧ ¬ inside_root "/app" (resolve "/app" "../../etc/passwd")
  ∧ disk !! ["etc"; "passwd"] = Some (fs.File "root")
  ∧ snd (create "/app" disk "../../etc/passwd" "x")
    = json (Message "File created successfully!")
  ∧ fst (create "/app" disk "../../etc/passwd" "x") !! ["etc"; "passwd"]
    = Some (fs.File "x")
  ∧ snd (delete_ "/app" disk "../../etc/passwd")
    = json (Message "File deleted successfully!")
  ∧ fst (delete_ "/app" disk "../../etc/passwd") !! ["etc"; "passwd"] = None.
Proof.
  repeat split; try (vm_compute; reflexivity).
  intros [k Hk]. vm_compute in Hk. discriminate.
Qed.

(** C1, amended.  No route validates its names; each resolves them with
    [path.join(BASE_DIR, name)].  When no name of a request has a [..]
    segment (a name with an absolute-path prefix included, since
    [path.join] does not let it replace the base), every name resolves
    inside the storage root and no path outside the root is created,
    changed or removed. *)
Theorem effects_confined_without_dotdot
    (dirname : string) (st : gmap (list string) fs.node) rq :
  path.isAbsolute dirname = true →
  (∀ name, name ∈ names rq → has_dotdot name = false) →
  (∀ name, name ∈ names rq → inside_root dirname (resolve dirname name))
  ∧ (∀ k, ¬ fs.components (BASE_DIR dirname) `prefix_of` k →
          fst (handle dirname st rq) !! k = st !! k).
Proof.
  intros Habs Hdd.
  assert (∀ name, name ∈ names rq →
            inside_root dirname (resolve dirname name)) as Hin
    by (intros name ?; by apply resolve_inside_root, Hdd).
  split; [done|].
  intros k Hk. apply handle_frame. intros name Hname ->.
  by apply Hk, Hin.
Qed.

Lemma effects_confined_without_dotdot_witness :
  inside_root "/app" (resolve "/app" "/etc/passwd")
  ∧ fst (handle "/app" disk (Create "/etc/passwd" "x")) !! ["etc"; "passwd"]
    = disk !! ["etc"; "passwd"].
Proof.
  assert (∀ name, name ∈ names (Create "/etc/passwd" "x") →
            has_dotdot name = false) as Hdd
    by (intros name ->%list_elem_of_singleton; vm_compute; reflexivity).
  destruct (effects_confined_without_dotdot "/app" disk
              (Create "/etc/passwd" "x") eq_refl Hdd) as [Hin Hfr].
  split.
  - apply Hin, list_elem_of_here.
  - apply Hfr. intros [k Hk]. vm_compute in Hk. discriminate.
Defined.

(** ** Uploading two files *)

(** C8.  After a successful upload of the two parts [a.txt] and [b.txt],
    both files can be read from the storage root, each with the content
    of its own part. *)
Theorem upload_two_files (dirname : string) (st : gmap (list string) fs.node) ca cb :
  path.isAbsolute dirname = true →
  succeeded (snd (upload dirname st
                    [multer.mkFile "a.txt" ca; multer.mkFile "b.txt" cb]))
  = true →
  let st' := fst (upload dirname st
                    [multer.mkFile "a.txt" ca; multer.mkFile "b.txt" cb]) in
  fs.readFile st' (resolve dirname "a.txt") = inr ca
  ∧ fs.readFile st' (resolve dirname "b.txt") = inr cb.
Proof.
  intros Habs Hok st'. subst st'. revert Hok.
  unfold upload. cbn [multer.array multer.originalname].
  do 2 (case_decide; [discriminate|]).
  destruct (multer.handleFile (storage dirname) st (multer.mkFile "a.txt" ca))
    as [st1 [e|]] eqn:Ha; [done|].
  destruct (multer.handleFile (storage dirname) st1 (multer.mkFile "b.txt" cb))
    as [st2 [e|]] eqn:Hb; [done|].
  apply handleFile_success in Ha as [_ Ha].
  apply handleFile_success in Hb as [_ Hb].
  revert Ha Hb. unfold multer.finalPath.
  cbn [storage multer.destination multer.filename multer.originalname
       multer.bytes].
  fold (resolve dirname "a.txt"). fold (resolve dirname "b.txt").
  intros Ha Hb _. cbn [fst]. split; [|by eapply read_after_write].
  apply write_success in Ha as (-> & Hra & Hta & Hna).
  apply write_success in Hb as (-> & _).
  assert (fs.components (resolve dirname "a.txt")
          = fs.components (BASE_DIR dirname) ++ ["a.txt"]) as Hka
    by (by apply resolve_plain).
  assert (fs.components (resolve dirname "b.txt")
          = fs.components (BASE_DIR dirname) ++ ["b.txt"]) as Hkb
    by (by apply resolve_plain).
  unfold fs.readFile. rewrite lookup_resolves.
  - rewrite Hka, Hkb, entry_snoc, lookup_insert_ne, lookup_insert_eq, Hta;
      [done|]. by intros [= ?]%app_inv_head.
  - apply resolves_insert; [rewrite Hka, Hkb, !length_app; done|].
    by apply resolves_insert.
Qed.

Lemma upload_two_files_witness :
  fs.readFile
    (fst (upload "/app" disk
            [multer.mkFile "a.txt" "alpha"; multer.mkFile "b.txt" "beta"]))
    "/app/user_files/a.txt" = inr "alpha"
  ∧ fs.readFile
      (fst (upload "/app" disk
              [multer.mkFile "a.txt" "alpha"; multer.mkFile "b.txt" "beta"]))
      "/app/user_files/b.txt" = inr "beta".
Proof.
  apply (upload_two_files "/app" disk "alpha" "beta"); vm_compute; reflexivity.
Defined.

(** ** A file from creation to deletion *)

(** The scenario of a file's life: created, edited, deleted, and deleted
    once more. *)
Example notes_scenario :
  let s1 := fst (create "/app" disk "notes.txt" "hello") in
  let s2 := fst (edit "/app" s1 "notes.txt" "world") in
  let s3 := fst (delete_ "/app" s2 "notes.txt") in
  fs.readFile s1 "/app/user_files/notes.txt" = inr "hello"
  ∧ fs.readFile s2 "/app/user_files/notes.txt" = inr "world"
  ∧ s3 = disk
  ∧ delete_ "/app" s3 "notes.txt"
    = (disk,
       status_json 500
         (ErrorBody
            "ENOENT: no such file or directory, unlink '/app/user_files/notes.txt'")).
Proof. cbv zeta. repeat split; vm_compute; reflexivity. Qed.

(** * Further properties *)

(** ** The start of the process *)

(** X1.  When the start of the process goes through, the storage root exists
    afterwards, no other path has been touched, and starting again
    changes nothing. *)
Theorem startup_ensures_root (dirname : string)
    (st st' : gmap (list string) fs.node) :
  startup dirname st = inr st' →
  fs.existsSync st' (BASE_DIR dirname) = true
  ∧ (∀ k, k ≠ fs.components (BASE_DIR dirname) → st' !! k = st !! k)
  ∧ startup dirname st' = inr st'.
Proof.
  unfold startup.
  destruct (fs.existsSync st (BASE_DIR dirname)) eqn:He; cbn [negb].
  - intros [= <-]. by rewrite He.
  - unfold fs.mkdirSync.
    destruct (fs.has_nul (BASE_DIR dirname)) eqn:Hn; [done|].
    destruct (fs.lookup st (BASE_DIR dirname)) as [c|[n|]] eqn:Hl;
      [done|done|].
    intros [= <-]. apply lookup_inr in Hl as [Hr Hen].
    assert (fs.components (BASE_DIR dirname) ≠ []) as Hne
      by (intros E; by rewrite E in Hen).
    assert (fs.existsSync
              (<[fs.components (BASE_DIR dirname) := fs.Dir]> st)
              (BASE_DIR dirname) = true) as He'.
    { unfold fs.existsSync. rewrite Hn.
      rewrite lookup_resolves by (by apply resolves_insert).
      rewrite entry_insert by done. by apply bool_decide_eq_true. }
    rewrite He'. split; [done|]. split; [|done].
    intros k Hk. by rewrite lookup_insert_ne.
Qed.

Lemma startup_ensures_root_witness :
  startup "/srv" (<[ ["srv"] := fs.Dir ]> ∅)
  = inr (<[ ["srv"; "user_files"] := fs.Dir ]> (<[ ["srv"] := fs.Dir ]> ∅))
  ∧ fs.existsSync
      (<[ ["srv"; "user_files"] := fs.Dir ]> (<[ ["srv"] := fs.Dir ]> ∅))
      (BASE_DIR "/srv") = true.
Proof.
  assert (startup "/srv" (<[ ["srv"] := fs.Dir ]> ∅)
          = inr (<[ ["srv"; "user_files"] := fs.Dir ]>
                   (<[ ["srv"] := fs.Dir ]> ∅))) as H
    by (vm_compute; reflexivity).
  split; [exact H|].
  exact (proj1 (startup_ensures_root "/srv" _ _ H)).
Defined.

(** ** Directories and the shape of the tree *)

Section Invariants.

Variable dirname : string.
Implicit Types (st : gmap (list string) fs.node) (p data : string).
Implicit Types (k : list string).

Lemma write_dirs st p data k :
  fst (fs.write st p data) !! k = Some fs.Dir ↔ st !! k = Some fs.Dir.
Proof.
  destruct (fs.write st p data) as [st' [err|]] eqn:Hw; cbn.
  - by apply write_failure in Hw as (-> & _).
  - apply write_success_iff in Hw as (-> & _ & _ & Hd).
    destruct (decide (k = fs.components p)) as [->|Hk].
    + rewrite lookup_insert_eq. split; [done|].
      intros Hk. destruct Hd. by destruct (fs.components p).
    + by rewrite lookup_insert_ne.
Qed.

Lemma remove_dirs st p k :
  fst (fs.remove st p) !! k = Some fs.Dir ↔ st !! k = Some fs.Dir.
Proof.
  destruct (fs.remove st p) as [st' [err|]] eqn:Hu; cbn.
  - by apply remove_failure in Hu as (-> & _).
  - apply remove_success in Hu as (-> & _ & _ & _ & d & Hd).
    destruct (decide (k = fs.components p)) as [->|Hk].
    + rewrite lookup_delete_eq, Hd. done.
    + by rewrite lookup_delete_ne.
Qed.

Lemma removeUploadedFiles_dirs st stored k :
  multer.removeUploadedFiles st stored !! k = Some fs.Dir
  ↔ st !! k = Some fs.Dir.
Proof.
  unfold multer.removeUploadedFiles.
  revert st. induction stored as [|p stored IH]; intros st; [done|].
  cbn. rewrite IH. apply remove_dirs.
Qed.

Lemma handleFile_dirs storage st f k :
  fst (multer.handleFile storage st f) !! k = Some fs.Dir
  ↔ st !! k = Some fs.Dir.
Proof.
  rewrite handleFile_fst. destruct (fs.has_nul _); [done|]. apply write_dirs.
Qed.

Lemma array_dirs storage st stored files k :
  fst (multer.array storage st stored files) !! k = Some fs.Dir
  ↔ st !! k = Some fs.Dir.
Proof.
  revert st stored. induction files as [|f files IH]; intros st stored;
    [done|].
  cbn [multer.array]. case_decide; [apply IH|].
  pose proof (handleFile_dirs storage st f k) as Hw.
  destruct (multer.handleFile storage st f) as [st' [err|]]; cbn in Hw |- *.
  - by rewrite removeUploadedFiles_dirs.
  - by rewrite IH.
Qed.

End Invariants.

(** X4.  No request makes or removes a directory: the directories after a
    request are the directories before it. *)
Theorem handle_keeps_directories (dirname : string)
    (st : gmap (list string) fs.node) rq k :
  fst (handle dirname st rq) !! k = Some fs.Dir ↔ st !! k = Some fs.Dir.
Proof.
  destruct rq as [files|f c|f c|f]; cbn [handle].
  - unfold upload.
    pose proof (array_dirs (storage dirname) st [] files k) as H.
    by destruct (multer.array _ st [] files) as [st' [err|]].
  - rewrite create_fst. destruct (fs.has_nul _); [done|]. apply write_dirs.
  - rewrite edit_fst. destruct (fs.has_nul _); [done|]. apply write_dirs.
  - rewrite delete_fst. destruct (fs.has_nul _); [done|]. apply remove_dirs.
Qed.

Lemma handle_keeps_directories_witness :
  fst (handle "/app" disk (Delete "")) !! ["app"; "user_files"]
  = Some fs.Dir.
Proof.
  apply (handle_keeps_directories "/app" disk (Delete "") ["app"; "user_files"]).
  vm_compute. reflexivity.
Defined.

Section Shape.

Implicit Types (st : gmap (list string) fs.node) (p data : string).
Implicit Types (k : list string).

Lemma entry_insert_file st k segs d :
  fs.entry st segs ≠ Some fs.Dir →
  fs.entry st k = Some fs.Dir →
  fs.entry (<[segs := fs.File d]> st) k = Some fs.Dir.
Proof.
  intros Hs Hk. destruct k as [|x k]; [done|]. cbn [fs.entry] in *.
  rewrite lookup_insert_ne; [done|]. by intros ->.
Qed.

Lemma write_well_formed st p data :
  well_formed st → well_formed (fst (fs.write st p data)).
Proof.
  intros Hwf.
  destruct (fs.write st p data) as [st' [err|]] eqn:Hw; cbn.
  - by apply write_failure in Hw as (-> & _).
  - apply write_success_iff in Hw as (-> & (_ & Hwalk & _) & _ & Hd).
    intros k x n Hl. apply entry_insert_file; [done|].
    destruct (decide (k ++ [x] = fs.components p)) as [E|Hne].
    + rewrite <- E in Hwalk. by eapply walk_parent.
    + rewrite lookup_insert_ne in Hl by done. by eapply Hwf.
Qed.

Lemma remove_well_formed st p :
  well_formed st → well_formed (fst (fs.remove st p)).
Proof.
  intros Hwf.
  destruct (fs.remove st p) as [st' [err|]] eqn:Hu; cbn.
  - by apply remove_failure in Hu as (-> & _).
  - apply remove_success in Hu as (-> & _ & _ & _ & d & Hd).
    intros k x n Hl.
    apply lookup_delete_Some in Hl as [Hne Hl].
    apply Hwf in Hl. destruct k as [|y k]; [done|]. cbn [fs.entry] in *.
    rewrite lookup_delete_ne; [done|]. intros E. rewrite E in Hd. congruence.
Qed.

Lemma removeUploadedFiles_well_formed st stored :
  well_formed st → well_formed (multer.removeUploadedFiles st stored).
Proof.
  unfold multer.removeUploadedFiles.
  revert st. induction stored as [|p stored IH]; intros st Hwf; [done|].
  cbn. by apply IH, remove_well_formed.
Qed.

Lemma handleFile_well_formed storage st f :
  well_formed st → well_formed (fst (multer.handleFile storage st f)).
Proof.
  intros Hwf. rewrite handleFile_fst. destruct (fs.has_nul _); [done|].
  by apply write_well_formed.
Qed.

Lemma array_well_formed storage st stored files :
  well_formed st → well_formed (fst (multer.array storage st stored files)).
Proof.
  revert st stored. induction files as [|f files IH]; intros st stored Hwf;
    [done|].
  cbn [multer.array]. case_decide; [by apply IH|].
  pose proof (handleFile_well_formed storage st f Hwf) as Hw.
  destruct (multer.handleFile storage st f) as [st' [err|]]; cbn in Hw |- *.
  - by apply removeUploadedFiles_well_formed.
  - by apply IH.
Qed.

End Shape.

(** X5.  The file system stays a tree: when every entry lies in a directory
    before a request, the same holds after it. *)
Theorem handle_well_formed (dirname : string)
    (st : gmap (list string) fs.node) rq :
  well_formed st → well_formed (fst (handle dirname st rq)).
Proof.
  intros Hwf. destruct rq as [files|f c|f c|f]; cbn [handle].
  - unfold upload.
    pose proof (array_well_formed (storage dirname) st [] files Hwf) as H.
    by destruct (multer.array _ st [] files) as [st' [err|]].
  - rewrite create_fst. destruct (fs.has_nul _); [done|].
    by apply write_well_formed.
  - rewrite edit_fst. destruct (fs.has_nul _); [done|].
    by apply write_well_formed.
  - rewrite delete_fst. destruct (fs.has_nul _); [done|].
    by apply remove_well_formed.
Qed.

Lemma disk_well_formed : well_formed disk.
Proof.
  intros k x n H. unfold disk in H.
  repeat (apply lookup_insert_Some in H as [[Hk _]|[_ H]];
          [destruct k as [|? [|? [|? [|? k]]]]; cbn in Hk; simplify_eq;
           vm_compute; reflexivity|]).
  by rewrite lookup_empty in H.
Qed.

Lemma handle_well_formed_witness :
  well_formed (fst (handle "/app" disk (Create "notes.txt" "hello"))).
Proof.
  apply (handle_well_formed "/app" disk (Create "notes.txt" "hello")).
  exact disk_well_formed.
Defined.

(** ** Delete *)



(** X7.  Creating a file where nothing was and deleting it again leaves the
    file system as it was. *)
Theorem create_then_delete (dirname : string)
    (st : gmap (list string) fs.node) filename content :
  fs.entry st (fs.components (resolve dirname filename)) = None →
  succeeded (snd (create dirname st filename content)) = true →
  delete_ dirname (fst (create dirname st filename content)) filename
  = (st, json (Message "File deleted successfully!")).
Proof.
  intros Hnone (Hn & Hw & _)%create_succeeded.
  apply write_success in Hw as (-> & Hr & Ht & Hne).
  unfold delete_, fs.unlink, fs.remove. fold (resolve dirname filename).
  rewrite Hn, lookup_resolves by (by apply resolves_insert).
  rewrite entry_insert, Ht by done.
  destruct (fs.components (resolve dirname filename)) as [|s l]; [done|].
  cbn [fs.entry] in *. by rewrite delete_insert_id.
Qed.

Lemma create_then_delete_witness :
  delete_ "/app" (fst (create "/app" disk "notes.txt" "hello")) "notes.txt"
  = (disk, json (Message "File deleted successfully!")).
Proof.
  apply (create_then_delete "/app" disk "notes.txt" "hello");
    vm_compute; reflexivity.
Defined.

(** ** Edit *)

(** X8.  The last write wins, on the whole file system: after a successful
    edit, a second edit of the same name gives the very result it would
    have given without the first. *)
Theorem edit_last_write_wins (dirname : string)
    (st : gmap (list string) fs.node) filename a b :
  succeeded (snd (edit dirname st filename a)) = true →
  edit dirname (fst (edit dirname st filename a)) filename b
  = edit dirname st filename b.
Proof.
  intros (Hn & Hw & _)%edit_succeeded.
  pose proof (write_after_write _ _ _ (utf8.encode b) _ Hw) as Hw2.
  pose proof (write_any_data _ _ _ (utf8.encode b) _ Hw) as Hw1.
  unfold edit at 1 3. unfold fs.writeFile. fold (resolve dirname filename).
  by rewrite Hn, Hw1, Hw2.
Qed.

Lemma edit_last_write_wins_witness :
  edit "/app" (fst (edit "/app" disk "a.txt" "A")) "a.txt" "B"
  = edit "/app" disk "a.txt" "B".
Proof.
  apply (edit_last_write_wins "/app" disk "a.txt" "A" "B").
  vm_compute; reflexivity.
Defined.

(** ** Requests on other names *)

(** A look-up sees the path and its proper ancestors only. *)
Lemma lookup_ext (st1 st2 : gmap (list string) fs.node) (p : string) :
  (∀ q, length q < length (fs.components p) → st1 !! q = st2 !! q) →
  st1 !! fs.components p = st2 !! fs.components p →
  fs.lookup st1 p = fs.lookup st2 p.
Proof.
  intros Hq He. unfold fs.lookup. cbv zeta.
  rewrite (walk_ext st1 st2) by done.
  destruct (fs.components p); [done|]. cbn [fs.entry]. by rewrite He.
Qed.

Lemma read_after_other_names (dirname : string)
    (st : gmap (list string) fs.node) rq filename :
  path.isAbsolute dirname = true →
  plain filename →
  (∀ name, name ∈ names rq → plain name ∧ name ≠ filename) →
  fs.readFile (fst (handle dirname st rq)) (resolve dirname filename)
  = fs.readFile st (resolve dirname filename).
Proof.
  intros Habs Hpl Hnames.
  assert (∀ k, (∀ name, name ∈ names rq →
                  k ≠ fs.components (BASE_DIR dirname) ++ [name]) →
               fst (handle dirname st rq) !! k = st !! k) as Hfr.
  { intros k Hk. apply handle_frame. intros name Hname.
    rewrite resolve_plain by (done || by apply Hnames). by apply Hk. }
  unfold fs.readFile. rewrite (lookup_ext _ st); [done| |].
  - rewrite resolve_plain by done. intros q Hq. apply Hfr. intros name _ ->.
    rewrite !length_app in Hq. cbn in Hq. lia.
  - rewrite resolve_plain by done. apply Hfr.
    intros name Hname [= E]%app_inv_head. by apply Hnames in Hname as [_ []].
Qed.

(** X9.  A request leaves alone every file it does not name: reading a plain
    name gives the same result before and after any request whose names
    are plain and different from it. *)
Theorem handle_isolated (dirname : string)
    (st : gmap (list string) fs.node) rq filename :
  path.isAbsolute dirname = true →
  plain filename →
  (∀ name, name ∈ names rq → plain name ∧ name ≠ filename) →
  fs.readFile (fst (handle dirname st rq)) (resolve dirname filename)
  = fs.readFile st (resolve dirname filename).
Proof. apply read_after_other_names. Qed.

Lemma handle_isolated_witness :
  fs.readFile (fst (handle "/app" disk (Delete "b.txt")))
              (resolve "/app" "a.txt")
  = fs.readFile disk (resolve "/app" "a.txt").
Proof.
  apply (handle_isolated "/app" disk (Delete "b.txt") "a.txt").
  - reflexivity.
  - by repeat split.
  - intros name ->%list_elem_of_singleton. by repeat split.
Defined.

(** ** Upload, part by part *)

Lemma array_stored_success (storage : multer.DiskStorage) (st st' : gmap (list string) fs.node)
    stored stored' files :
  multer.array storage st stored files = (st', None) →
  multer.array storage st stored' files = (st', None).
Proof.
  revert st stored stored'.
  induction files as [|f files IH]; intros st stored stored'; [done|].
  cbn [multer.array]. case_decide; [apply IH|].
  destruct (multer.handleFile storage st f) as [st1 [err|]]; [done|].
  apply IH.
Qed.

(** The first part of a successful upload is written at the path its
    name resolves to, and the rest is an upload of its own. *)
Lemma upload_cons (dirname : string) (st : gmap (list string) fs.node)
    f files :
  multer.originalname f ≠ "" →
  succeeded (snd (upload dirname st (f :: files))) = true →
  ∃ st1,
    fs.write st (resolve dirname (multer.originalname f)) (multer.bytes f)
    = (st1, None)
    ∧ upload dirname st (f :: files) = upload dirname st1 files.
Proof.
  intros Hname. unfold upload. cbn [multer.array].
  rewrite decide_False by done.
  destruct (multer.handleFile (storage dirname) st f) as [st1 [err|]] eqn:Hh;
    [done|].
  apply handleFile_success in Hh as [_ Hw].
  intros Hok. exists st1. split; [exact Hw|].
  destruct (multer.array (storage dirname) st1
              ([] ++ [multer.finalPath (storage dirname) f]) files)
    as [st' [err|]] eqn:Ha; [done|].
  by rewrite (array_stored_success _ _ _ _ [] _ Ha).
Qed.

(** X10.  After a successful upload of parts with plain, pairwise different
    names, every part can be read back with its own content. *)
Theorem upload_stores_all (dirname : string)
    (st : gmap (list string) fs.node) files :
  path.isAbsolute dirname = true →
  Forall (λ f, plain (multer.originalname f)) files →
  NoDup (map multer.originalname files) →
  succeeded (snd (upload dirname st files)) = true →
  ∀ f, f ∈ files →
       fs.readFile (fst (upload dirname st files))
                   (resolve dirname (multer.originalname f))
       = inr (multer.bytes f).
Proof.
  intros Habs Hpl. revert st.
  induction Hpl as [|f files Hf Hpl IH]; intros st Hnd Hok g Hg;
    [by apply elem_of_nil in Hg|].
  apply NoDup_cons in Hnd as [Hnotin Hnd].
  destruct (upload_cons dirname st f files) as (st1 & Hw & Heq);
    [apply Hf|done|].
  rewrite Heq in Hok |- *.
  apply elem_of_cons in Hg as [->|Hg]; [|by apply IH].
  change (upload dirname st1 files) with (handle dirname st1 (Upload files)).
  rewrite read_after_other_names; [by eapply read_after_write|done|done|].
  intros name Hname. cbn [names] in Hname.
  split; [|by intros ->].
  apply list_elem_of_fmap in Hname as (h & -> & Hh).
  by eapply Forall_forall in Hpl.
Qed.

Lemma upload_stores_all_witness :
  fs.readFile
    (fst (upload "/app" disk
            [multer.mkFile "x.txt" "X"; multer.mkFile "y.txt" "Y";
             multer.mkFile "z.txt" "Z"]))
    (resolve "/app" "y.txt") = inr "Y".
Proof.
  refine (upload_stores_all "/app" disk
            [multer.mkFile "x.txt" "X"; multer.mkFile "y.txt" "Y";
             multer.mkFile "z.txt" "Z"] eq_refl _ _ eq_refl
            (multer.mkFile "y.txt" "Y") _).
  - repeat constructor; done.
  - apply (bool_decide_unpack _). vm_compute. exact I.
  - apply list_elem_of_further, list_elem_of_here.
Defined.

(** ** Names that cannot be files *)

Lemma resolve_trailing (dirname filename : string) :
  path.isAbsolute dirname = true →
  path.trailingSeparator filename = true →
  path.trailingSeparator (resolve dirname filename) = true.
Proof.
  intros Habs Ht. unfold resolve.
  rewrite join_pair
    by (apply isAbsolute_nonempty, BASE_DIR_absolute, Habs).
  rewrite decide_False by (by intros ->).
  apply normalize_trailing.
  rewrite <- append_assoc, trailingSeparator_append by (by intros ->).
  done.
Qed.

(** X12.  A name that ends with the separator is never written and never
    deleted: the request fails and the file system stays as it is. *)
Theorem trailing_separator_fails (dirname : string)
    (st : gmap (list string) fs.node) rq :
  path.isAbsolute dirname = true →
  route rq ≠ "/upload" →
  (∀ name, name ∈ names rq → path.trailingSeparator name = true) →
  status (snd (handle dirname st rq)) = 500
  ∧ fst (handle dirname st rq) = st.
Proof.
  intros Habs Hroute Hnames.
  destruct rq as [files|f c|f c|f]; cbn [handle route names] in *; [done|..];
    pose proof (resolve_trailing dirname f Habs
                  (Hnames f (list_elem_of_here _ _))) as Ht.
  - destruct (create_cases dirname st f c)
      as [(_ & Hw & _)|[(_ & err & _ & ->)|(_ & ->)]]; [|done..].
    apply write_success in Hw as (_ & _ & Hf & _). congruence.
  - destruct (edit_cases dirname st f c)
      as [(_ & Hw & _)|[(_ & err & _ & ->)|(_ & ->)]]; [|done..].
    apply write_success in Hw as (_ & _ & Hf & _). congruence.
  - destruct (delete_cases dirname st f)
      as [(_ & Hu & _)|[(_ & err & _ & ->)|(_ & ->)]]; [|done..].
    apply remove_success in Hu as (_ & _ & Hf & _). congruence.
Qed.

Lemma trailing_separator_fails_witness :
  status (snd (handle "/app" disk (Delete "a.txt/"))) = 500
  ∧ fst (handle "/app" disk (Delete "a.txt/")) = disk.
Proof.
  apply (trailing_separator_fails "/app" disk (Delete "a.txt/") eq_refl).
  - discriminate.
  - intros name ->%list_elem_of_singleton. reflexivity.
Defined.



(** ** From the start of the process to the first file *)



(** ** How far a name can reach *)

Section Reach.

Variable dirname : string.
Hypothesis dirname_abs : path.isAbsolute dirname = true.
Implicit Types (st : gmap (list string) fs.node) (l acc : list string).

Lemma fold_dotdot_pops acc :
  Forall plain acc →
  fold_left (path.step false) (replicate (length acc) "..") acc = [].
Proof.
  induction 1 as [|s acc (_ & _ & Hs & _) _ IH]; [done|].
  cbn [length replicate fold_left]. unfold path.step at 2.
  by rewrite !decide_False, decide_True, decide_False by done.
Qed.

Lemma climb_segments l :
  Forall plain l →
  Forall (λ s, s ≠ "" ∧ segment s)
    (replicate (length (fs.components (BASE_DIR dirname))) ".." ++ l)
  ∧ replicate (length (fs.components (BASE_DIR dirname))) ".." ++ l ≠ [].
Proof.
  intros Hl. split.
  - apply Forall_app. split.
    + apply Forall_replicate. by split.
    + eapply Forall_impl; [exact Hl|]. by intros s (? & _ & _ & ?).
  - destruct (BASE_DIR_last dirname dirname_abs) as [l0 ->].
    rewrite length_app, Nat.add_comm. done.
Qed.

Lemma climb_components l :
  Forall plain l → fs.components (resolve dirname (climb dirname l)) = l.
Proof.
  intros Hl. destruct (climb_segments l Hl) as [Hseg Hne].
  rewrite resolve_components by done. unfold climb.
  rewrite split_unsplit; [|by eapply Forall_impl; [exact Hseg|intros ? []]|done].
  rewrite fold_left_app, <- (length_rev (fs.components _)).
  rewrite fold_dotdot_pops by (apply Forall_rev, BASE_DIR_plain, dirname_abs).
  rewrite fold_step_plain by done. rewrite app_nil_r. apply rev_involutive.
Qed.

Lemma climb_trailing l :
  Forall plain l → l ≠ [] →
  path.trailingSeparator (resolve dirname (climb dirname l)) = false.
Proof.
  intros Hl Hne. pose proof (climb_components l Hl) as Hc.
  destruct (climb_segments l Hl) as [Hseg Hne'].
  assert (path.trailingSeparator (climb dirname l) = false) as Ht
    by (by apply unsplit_segments_trailing).
  assert (climb dirname l ≠ "") as Hnz.
  { unfold climb. destruct (replicate _ ".." ++ l) as [|s [|s' r]] eqn:E;
      [done| |].
    - apply Forall_singleton in Hseg as [? _]. done.
    - apply Forall_cons in Hseg as [[? _] _]. cbn. by destruct s. }
  pose proof (BASE_DIR_absolute dirname dirname_abs) as Habs.
  revert Hc. unfold resolve.
  rewrite join_pair by by apply isAbsolute_nonempty.
  rewrite decide_False by done. intros Hc.
  apply normalize_no_trailing.
  - by apply isAbsolute_append.
  - by rewrite <- append_assoc, trailingSeparator_append, Ht.
  - by rewrite Hc.
Qed.

End Reach.

Lemma valid_unsplit (l : list string) :
  Forall utf8.valid l → utf8.valid (path.unsplit l).
Proof.
  induction 1 as [|s l Hs Hl IH]; [by exists []|].
  destruct l as [|s' l]; [done|].
  change (path.unsplit (s :: s' :: l))
    with (s +:+ "/" +:+ path.unsplit (s' :: l)).
  apply valid_append; [done|]. apply valid_append; [|done].
  exists (text "/"). split; vm_compute; reflexivity.
Qed.



(** ** Client and server together *)

Section ClientFacts.

Variable dirname : string.
Implicit Types (st : gmap (list string) fs.node).

Lemma strip_origin route :
  strip_prefix origin (mcpClient.BASE_URL +:+ route) = Some route.
Proof. reflexivity. Qed.

Lemma files_parts (files : list multer.file) :
  forallb (λ part : string * multer.file, bool_decide (part.1 = "files"))
          (map (λ file, ("files", file)) files) = true
  ∧ map snd (map (λ file : multer.file, ("files", file)) files) = files.
Proof.
  induction files as [|f files [IH1 IH2]]; [done|].
  cbn. split; [done|]. by rewrite IH2.
Qed.

Lemma uploadFiles_served st files :
  mcpClient.uploadFiles dirname st files
  = Some (fst (upload dirname st files), settle (snd (upload dirname st files))).
Proof.
  unfold mcpClient.uploadFiles, axios_post. rewrite strip_origin.
  unfold app_post. rewrite decide_True by done.
  destruct (files_parts files) as [-> ->].
  by destruct (upload dirname st files).
Qed.

Lemma createFile_served st filename content :
  mcpClient.createFile dirname st filename content
  = Some (fst (create dirname st filename content),
          settle (snd (create dirname st filename content))).
Proof.
  unfold mcpClient.createFile, axios_post. rewrite strip_origin.
  unfold app_post. rewrite decide_True by done.
  rewrite lookup_insert_eq, lookup_insert_ne, lookup_insert_eq by done.
  by destruct (create dirname st filename content).
Qed.

Lemma editFile_served st filename content :
  mcpClient.editFile dirname st filename content
  = Some (fst (edit dirname st filename content),
          settle (snd (edit dirname st filename content))).
Proof.
  unfold mcpClient.editFile, axios_post. rewrite strip_origin.
  unfold app_post. rewrite decide_False, decide_True by done.
  rewrite lookup_insert_eq, lookup_insert_ne, lookup_insert_eq by done.
  by destruct (edit dirname st filename content).
Qed.

Lemma deleteFile_served st filename :
  mcpClient.deleteFile dirname st filename
  = Some (fst (delete_ dirname st filename),
          settle (snd (delete_ dirname st filename))).
Proof.
  unfold mcpClient.deleteFile, axios_post. rewrite strip_origin.
  unfold app_post. rewrite !decide_False, decide_True by done.
  rewrite lookup_insert_eq.
  by destruct (delete_ dirname st filename).
Qed.

End ClientFacts.




(** X17.  What the user is told after Delete File: the success alert, and then
    the file is gone; or the failure alert, and then nothing was
    changed. *)
Theorem handleDelete_end_to_end (dirname : string)
    (st : gmap (list string) fs.node) (s : App.state) :
  ∃ st',
    (App.handleDelete dirname s st
     = Some (st', "✅ File deleted successfully!")
     ∧ fs.readFile st' (resolve dirname (App.filename s))
       = inl (fs.mkError fs.ENOENT "open"
                (resolve dirname (App.filename s))))
    ∨ (App.handleDelete dirname s st = Some (st', "❌ Delete failed.")
       ∧ st' = st).
Proof.
  unfold App.handleDelete. rewrite deleteFile_served.
  destruct (delete_cases dirname st (App.filename s))
    as [(_ & Hu & Hr)|[(_ & err & _ & Hd)|(_ & Hd)]].
  - eexists. left. rewrite Hr. split; [reflexivity|].
    apply lookup_after_remove in Hu. unfold fs.readFile. by rewrite Hu.
  - exists st. right. by rewrite Hd.
  - exists st. right. by rewrite Hd.
Qed.

(** ** The 64-bit integers of [long.js] *)

Section LongFacts.

Local Open Scope Z_scope.
Import Long.

Implicit Types (x y n k : Z) (a b : Long).

Ltac divmod := Z.div_mod_to_equations; lia.

Lemma ToInt32_range x : int32 (ToInt32 x).
Proof. unfold int32, ToInt32. divmod. Qed.

Lemma ToInt32_id x : int32 x → ToInt32 x = x.
Proof. unfold int32, ToInt32. intros. divmod. Qed.

Lemma ToUint32_range x : 0 <= ToUint32 x < 2 ^ 32.
Proof. unfold ToUint32. divmod. Qed.

Lemma ToUint32_ToInt32 x : ToUint32 (ToInt32 x) = ToUint32 x.
Proof. unfold ToUint32, ToInt32. divmod. Qed.

Lemma ToInt32_ToUint32 x : ToInt32 (ToUint32 x) = ToInt32 x.
Proof. unfold ToUint32, ToInt32. divmod. Qed.

Lemma ToInt32_idemp x : ToInt32 (ToInt32 x) = ToInt32 x.
Proof. apply ToInt32_id, ToInt32_range. Qed.

Lemma bor_0 x : bor x 0 = ToInt32 x.
Proof. unfold bor. change (ToInt32 0) with 0. apply Z.lor_0_r. Qed.

Lemma new_wf x y u : wf (new x y u).
Proof. unfold wf, new; cbn. rewrite !bor_0. split; apply ToInt32_range. Qed.

Lemma new_id a : wf a → new (low a) (high a) (unsigned a) = a.
Proof.
  intros [Hl Hh]. destruct a as [l h u]; cbn in *. unfold new.
  by rewrite !bor_0, !ToInt32_id.
Qed.

Lemma uvalue_new x y u :
  uvalue (new x y u) = ToUint32 y * 2 ^ 32 + ToUint32 x.
Proof. unfold uvalue, new; cbn. by rewrite !bor_0, !ToUint32_ToInt32. Qed.

Lemma uvalue_range a : 0 <= uvalue a < 2 ^ 64.
Proof.
  unfold uvalue. pose proof (ToUint32_range (high a)).
  pose proof (ToUint32_range (low a)). lia.
Qed.

(** Bits that do not overlap add up. *)
Lemma lor_disjoint k n lo :
  0 <= n → 0 <= lo < 2 ^ n → Z.lor (k * 2 ^ n) lo = k * 2 ^ n + lo.
Proof.
  intros Hn Hlo.
  assert (Z.land (k * 2 ^ n) lo = 0) as H.
  { apply Z.bits_inj'; intros i Hi. rewrite Z.land_spec, Z.bits_0.
    destruct (Z.lt_ge_cases i n) as [Hlt|Hge].
    - by rewrite Z.mul_pow2_bits_low by lia.
    - destruct (Z.eq_dec lo 0) as [->|Hz];
        [by rewrite Z.bits_0, andb_false_r|].
      rewrite (Z.bits_above_log2 lo i), andb_false_r; [done|lia|].
      apply Z.log2_lt_pow2; [lia|].
      apply Z.lt_le_trans with (2 ^ n); [lia|].
      apply Z.pow_le_mono_r; lia. }
  by rewrite <- (Z.lxor_lor _ _ H), (Z.add_nocarry_lxor _ _ H).
Qed.

Lemma band_mask16 x : band x 0xFFFF = x mod 2 ^ 16.
Proof.
  unfold band. change (ToInt32 0xFFFF) with (Z.ones 16).
  rewrite Z.land_ones by done. unfold ToInt32. divmod.
Qed.

Lemma shru_16 x : shru x 16 = x mod 2 ^ 32 / 2 ^ 16.
Proof. reflexivity. Qed.

Lemma ToUint32_bor_shl16 x y :
  0 <= x < 2 ^ 16 → 0 <= y < 2 ^ 16 →
  ToUint32 (bor (shl x 16) y) = x * 2 ^ 16 + y.
Proof.
  intros Hx Hy. unfold bor, shl.
  change (2 ^ (ToUint32 16 mod 32)) with (2 ^ 16).
  rewrite (ToInt32_id x), (ToInt32_id y), ToInt32_idemp by (unfold int32; lia).
  assert (ToInt32 (x * 2 ^ 16) = ToInt32 (x * 2 ^ 16) / 2 ^ 16 * 2 ^ 16) as ->
    by (unfold ToInt32; divmod).
  rewrite lor_disjoint by lia.
  unfold ToUint32, ToInt32. divmod.
Qed.

Lemma uvalue_add a b :
  uvalue (add a b) = (uvalue a + uvalue b) mod 2 ^ 64.
Proof.
  unfold add. cbv zeta. unfold fromBits. rewrite uvalue_new.
  rewrite !band_mask16, !shru_16.
  rewrite !ToUint32_bor_shl16.
  - unfold uvalue, ToUint32. divmod.
  - divmod.
  - divmod.
  - divmod.
  - divmod.
Qed.

Lemma value_uvalue a : value a = wrap (unsigned a) (uvalue a).
Proof.
  unfold value, wrap, svalue, uvalue, ToInt32, ToUint32.
  destruct (unsigned a); divmod.
Qed.

Lemma wrap_mod u x y : x mod 2 ^ 64 = y mod 2 ^ 64 → wrap u x = wrap u y.
Proof. unfold wrap. destruct u; intros; divmod. Qed.

Lemma wrap_mod_idemp u x : wrap u x mod 2 ^ 64 = x mod 2 ^ 64.
Proof. unfold wrap. destruct u; divmod. Qed.

Lemma value_mod a : value a mod 2 ^ 64 = uvalue a.
Proof.
  rewrite value_uvalue, wrap_mod_idemp. pose proof (uvalue_range a). divmod.
Qed.

Lemma add_unsigned a b : unsigned (add a b) = unsigned a.
Proof. reflexivity. Qed.

Lemma value_add a b :
  value (add a b) = wrap (unsigned a) (value a + value b).
Proof.
  rewrite value_uvalue, add_unsigned, uvalue_add.
  apply wrap_mod. rewrite <- (value_mod a), <- (value_mod b). divmod.
Qed.

Lemma uvalue_not a : uvalue (not a) = 2 ^ 64 - 1 - uvalue a.
Proof.
  unfold not, fromBits. rewrite uvalue_new. unfold bnot, Z.lnot, Z.pred.
  unfold uvalue, ToUint32, ToInt32. divmod.
Qed.

Lemma equals_same_flag a b :
  unsigned a = unsigned b →
  equals a b = (high a =? high b) && (low a =? low b).
Proof. unfold equals. intros ->. by rewrite Bool.eqb_reflx. Qed.

Lemma value_negate a :
  value (negate a) = wrap (unsigned a) (- value a)
  ∧ unsigned (negate a) = unsigned a.
Proof.
  unfold negate. destruct (unsigned a) eqn:Hu; cbn [negb andb].
  - split; [|done]. rewrite value_add. cbn [unsigned not fromBits new].
    rewrite Hu. apply wrap_mod.
    rewrite Zplus_mod, value_mod, uvalue_not, <- (value_mod a).
    change (value ONE) with 1. divmod.
  - destruct (equals a MIN_VALUE) eqn:He.
    + rewrite equals_same_flag in He by done.
      apply andb_prop in He as [Hh%Z.eqb_eq Hl%Z.eqb_eq].
      unfold value at 2. rewrite Hu. unfold svalue. rewrite Hh, Hl. done.
    + split; [|done]. rewrite value_add. cbn [unsigned not fromBits new].
      rewrite Hu. apply wrap_mod.
      rewrite Zplus_mod, value_mod, uvalue_not, <- (value_mod a).
      change (value ONE) with 1. divmod.
Qed.

Lemma value_subtract a b :
  value (subtract a b) = wrap (unsigned a) (value a - value b).
Proof.
  unfold subtract. rewrite value_add. apply wrap_mod.
  destruct (value_negate b) as [-> _].
  rewrite Zplus_mod, wrap_mod_idemp. divmod.
Qed.

Lemma add_wf a b : wf (add a b).
Proof. apply new_wf. Qed.

Lemma svalue_sign a : wf a → (high a < 0 ↔ svalue a < 0).
Proof.
  intros [Hl Hh]. unfold svalue. rewrite (ToInt32_id (high a)) by done.
  pose proof (ToUint32_range (low a)). lia.
Qed.

Lemma svalue_range a : - 2 ^ 63 <= svalue a < 2 ^ 63.
Proof.
  unfold svalue. pose proof (ToInt32_range (high a)) as H.
  pose proof (ToUint32_range (low a)). unfold int32 in H. lia.
Qed.

Lemma fields_uvalue a b :
  wf a → wf b → uvalue a = uvalue b → high a = high b ∧ low a = low b.
Proof.
  intros [Hla Hha] [Hlb Hhb]. unfold uvalue, ToUint32, int32 in *.
  intros. split; divmod.
Qed.

Lemma shru_31 x : int32 x → (shru x 31 =? 1) = (x <? 0).
Proof.
  intros Hx. unfold shru, int32 in *.
  change (2 ^ (ToUint32 31 mod 32)) with (2 ^ 31). unfold ToUint32.
  destruct (Z.ltb_spec x 0); [apply Z.eqb_eq|apply Z.eqb_neq]; divmod.
Qed.

Lemma shru_0 x : shru x 0 = ToUint32 x.
Proof. unfold shru. change (2 ^ (ToUint32 0 mod 32)) with 1. apply Z.div_1_r. Qed.

Lemma equals_value a b :
  wf a → wf b → (equals a b = true ↔ value a = value b).
Proof.
  intros Ha Hb. pose proof Ha as [Hla Hha]. pose proof Hb as [Hlb Hhb].
  unfold equals. rewrite !shru_31 by done.
  assert (high a = high b ∧ low a = low b ↔ uvalue a = uvalue b) as Hf.
  { split; [|by apply fields_uvalue]. intros [H1 H2]. unfold uvalue.
    by rewrite H1, H2. }
  assert ((high a =? high b) && (low a =? low b) = true
          ↔ uvalue a = uvalue b) as Hfb.
  { rewrite <- Hf, andb_true_iff, !Z.eqb_eq. done. }
  pose proof (svalue_sign a Ha). pose proof (svalue_sign b Hb).
  pose proof (uvalue_range a). pose proof (uvalue_range b).
  assert (svalue a = wrap false (uvalue a)) as Hsa
    by (pose proof (value_uvalue (mkLong (low a) (high a) false)) as E;
        exact E).
  assert (svalue b = wrap false (uvalue b)) as Hsb
    by (pose proof (value_uvalue (mkLong (low b) (high b) false)) as E;
        exact E).
  unfold wrap in Hsa, Hsb. unfold value.
  destruct (unsigned a), (unsigned b); cbn [Bool.eqb negb andb].
  - done.
  - destruct (Z.ltb_spec (high a) 0), (Z.ltb_spec (high b) 0);
      cbn [andb]; rewrite ?Hfb; split; try done; intros; divmod.
  - destruct (Z.ltb_spec (high a) 0), (Z.ltb_spec (high b) 0);
      cbn [andb]; rewrite ?Hfb; split; try done; intros; divmod.
  - rewrite Hfb. split; intros; divmod.
Qed.

Lemma compare_value a b :
  wf a → wf b → unsigned a = unsigned b →
  compare a b
  = match value a ?= value b with Eq => 0 | Lt => -1 | Gt => 1 end.
Proof.
  intros Ha Hb Hu. unfold compare.
  pose proof (equals_value a b Ha Hb) as He.
  destruct (equals a b).
  - destruct He as [He _]. rewrite He by done. by rewrite Z.compare_refl.
  - assert (value a ≠ value b) as Hne by (intros E; by apply He in E).
    clear He. cbv zeta.
    pose proof (svalue_sign a Ha) as Hsa. pose proof (svalue_sign b Hb) as Hsb.
    revert Hne. unfold value. rewrite <- Hu.
    destruct (unsigned a) eqn:Hua; cbn [negb andb orb]; intros Hne.
    + unfold isNegative. rewrite <- Hu, Hua. cbn [negb andb].
      rewrite !shru_0.
      destruct Ha as [Hla Hha], Hb as [Hlb Hhb].
      unfold uvalue, ToUint32, int32 in *.
      destruct (Z.compare_spec
                  (high a mod 2 ^ 32 * 2 ^ 32 + low a mod 2 ^ 32)
                  (high b mod 2 ^ 32 * 2 ^ 32 + low b mod 2 ^ 32));
        [done| |];
        destruct (Z.ltb_spec (high a mod 2 ^ 32) (high b mod 2 ^ 32));
        destruct (Z.eqb_spec (high b) (high a));
        destruct (Z.ltb_spec (low a mod 2 ^ 32) (low b mod 2 ^ 32));
        cbn [andb orb]; try done; exfalso; divmod.
    + pose proof (svalue_range a). pose proof (svalue_range b).
      pose proof (value_subtract a b) as Hv.
      unfold value in Hv.
      change (unsigned (subtract a b)) with (unsigned a) in Hv.
      rewrite <- Hu, Hua in Hv. unfold wrap in Hv.
      pose proof (svalue_sign (subtract a b) (add_wf _ _)) as Hs.
      unfold isNegative. change (unsigned (subtract a b)) with (unsigned a).
      rewrite <- Hu, Hua. cbn [negb andb].
      destruct (Z.compare_spec (svalue a) (svalue b)); [done| |];
        destruct (Z.ltb_spec (high a) 0), (Z.ltb_spec (high b) 0);
        destruct (Z.ltb_spec (high (subtract a b)) 0);
        cbn [andb negb]; try done; exfalso; divmod.
Qed.

End LongFacts.

Section LongBytes.

Local Open Scope Z_scope.
Import Long.

Implicit Types (x y n k : Z) (a : Long).

Ltac divmod := Z.div_mod_to_equations; lia.

Lemma band_mask8 x : band x 0xff = x mod 2 ^ 8.
Proof.
  unfold band. change (ToInt32 0xff) with (Z.ones 8).
  rewrite Z.land_ones by done. unfold ToInt32. divmod.
Qed.

Lemma bor_int32 x y : int32 x → int32 y → bor x y = Z.lor x y.
Proof. intros. unfold bor. by rewrite !ToInt32_id. Qed.

Lemma bor_low k n lo :
  0 <= n → 0 <= lo < 2 ^ n → int32 (k * 2 ^ n) → int32 lo →
  bor (k * 2 ^ n) lo = k * 2 ^ n + lo ∧ bor lo (k * 2 ^ n) = k * 2 ^ n + lo.
Proof.
  intros. rewrite !bor_int32 by done.
  rewrite (Z.lor_comm lo). by rewrite lor_disjoint.
Qed.

Lemma shl_small x n :
  0 <= n < 32 → 0 <= x → x * 2 ^ n < 2 ^ 31 → shl x n = x * 2 ^ n.
Proof.
  intros Hn Hx Hs. unfold shl.
  replace (ToUint32 n mod 32) with n by (unfold ToUint32; divmod).
  assert (x < 2 ^ 31) by nia.
  rewrite (ToInt32_id x) by (unfold int32; lia).
  apply ToInt32_id. unfold int32. lia.
Qed.

Lemma shl_24 x : byte x → shl x 24 = ToInt32 (x * 2 ^ 24) / 2 ^ 24 * 2 ^ 24.
Proof.
  intros Hx. unfold byte in Hx. unfold shl.
  change (2 ^ (ToUint32 24 mod 32)) with (2 ^ 24).
  rewrite (ToInt32_id x) by (unfold int32; lia).
  unfold ToInt32. divmod.
Qed.

(** Four bytes, the least significant first, put together by [|] and
    [<<] in either order. *)
Lemma bytes_le b0 b1 b2 b3 :
  byte b0 → byte b1 → byte b2 → byte b3 →
  bor (bor (bor b0 (shl b1 8)) (shl b2 16)) (shl b3 24)
  = ToInt32 (b0 + b1 * 2 ^ 8 + b2 * 2 ^ 16 + b3 * 2 ^ 24).
Proof.
  unfold byte. intros H0 H1 H2 H3.
  rewrite (shl_small b1 8), (shl_small b2 16), shl_24 by (done || lia).
  set (k := ToInt32 (b3 * 2 ^ 24) / 2 ^ 24).
  assert (int32 (k * 2 ^ 24))
    by (subst k; unfold int32, ToInt32; divmod).
  destruct (bor_low b1 8 b0) as [_ ->]; try (unfold int32; lia).
  destruct (bor_low b2 16 (b1 * 2 ^ 8 + b0)) as [_ ->];
    try (unfold int32; lia).
  destruct (bor_low k 24 (b2 * 2 ^ 16 + (b1 * 2 ^ 8 + b0))) as [_ ->];
    try done; try (unfold int32; lia).
  subst k. unfold ToInt32. divmod.
Qed.

Lemma bytes_be b0 b1 b2 b3 :
  byte b0 → byte b1 → byte b2 → byte b3 →
  bor (bor (bor (shl b3 24) (shl b2 16)) (shl b1 8)) b0
  = ToInt32 (b0 + b1 * 2 ^ 8 + b2 * 2 ^ 16 + b3 * 2 ^ 24).
Proof.
  unfold byte. intros H0 H1 H2 H3.
  rewrite (shl_small b1 8), (shl_small b2 16), shl_24 by (done || lia).
  set (k := ToInt32 (b3 * 2 ^ 24) / 2 ^ 24).
  assert (- 2 ^ 7 <= k < 2 ^ 7) as Hk
    by (subst k; unfold ToInt32; divmod).
  destruct (bor_low k 24 (b2 * 2 ^ 16)) as [-> _];
    try (unfold int32; lia).
  replace (k * 2 ^ 24 + b2 * 2 ^ 16) with ((k * 2 ^ 8 + b2) * 2 ^ 16) by lia.
  destruct (bor_low (k * 2 ^ 8 + b2) 16 (b1 * 2 ^ 8)) as [-> _];
    try (unfold int32; lia).
  replace ((k * 2 ^ 8 + b2) * 2 ^ 16 + b1 * 2 ^ 8)
    with (((k * 2 ^ 8 + b2) * 2 ^ 8 + b1) * 2 ^ 8) by lia.
  destruct (bor_low ((k * 2 ^ 8 + b2) * 2 ^ 8 + b1) 8 b0) as [-> _];
    try (unfold int32; lia).
  subst k. unfold ToInt32. divmod.
Qed.

Lemma shru_const x k :
  0 <= k < 32 → shru x k = x mod 2 ^ 32 / 2 ^ k.
Proof.
  intros. unfold shru, ToUint32.
  by replace (k mod 2 ^ 32 mod 32) with k by divmod.
Qed.

Lemma toBytesLE_bytes a : Forall byte (toBytesLE a).
Proof.
  unfold toBytesLE. cbv zeta. rewrite !band_mask8, !shru_const by lia.
  repeat constructor; unfold byte; divmod.
Qed.

Lemma toBytesBE_rev a : toBytesBE a = rev (toBytesLE a).
Proof. reflexivity. Qed.

Lemma fromBytesLE_toBytesLE a :
  wf a → fromBytesLE (toBytesLE a) (unsigned a) = a.
Proof.
  intros [Hl Hh]. pose proof (toBytesLE_bytes a) as Hb.
  unfold toBytesLE in *. cbv zeta in *.
  repeat (apply Forall_cons in Hb as [? Hb]).
  unfold fromBytesLE, at_. cbn [nth].
  rewrite !bytes_le by done.
  rewrite !band_mask8, !shru_const by lia.
  destruct a as [l h u]. unfold new, int32 in *. cbn in *.
  rewrite !bor_0, !ToInt32_idemp.
  f_equal; unfold ToInt32; divmod.
Qed.

Lemma fromBytesBE_toBytesBE a :
  wf a → fromBytesBE (toBytesBE a) (unsigned a) = a.
Proof.
  intros [Hl Hh]. pose proof (toBytesLE_bytes a) as Hb.
  unfold toBytesLE, toBytesBE in *. cbv zeta in *.
  repeat (apply Forall_cons in Hb as [? Hb]).
  unfold fromBytesBE, at_. cbn [nth].
  rewrite !bytes_be by done.
  rewrite !band_mask8, !shru_const by lia.
  destruct a as [l h u]. unfold new, int32 in *. cbn in *.
  rewrite !bor_0, !ToInt32_idemp.
  f_equal; unfold ToInt32; divmod.
Qed.

Lemma toBytesLE_fromBytesLE b0 b1 b2 b3 b4 b5 b6 b7 u :
  Forall byte [b0; b1; b2; b3; b4; b5; b6; b7] →
  toBytesLE (fromBytesLE [b0; b1; b2; b3; b4; b5; b6; b7] u)
  = [b0; b1; b2; b3; b4; b5; b6; b7].
Proof.
  intros Hb. repeat (apply Forall_cons in Hb as [? Hb]).
  unfold fromBytesLE, at_. cbn [nth].
  rewrite !bytes_le by done.
  unfold toBytesLE, new. cbv zeta. cbn [low high].
  rewrite !bor_0, !ToInt32_idemp.
  rewrite !band_mask8, !shru_const by lia.
  unfold byte in *.
  repeat f_equal; unfold ToInt32; divmod.
Qed.

End LongBytes.

Section LongBits.

Local Open Scope Z_scope.
Import Long.

Implicit Types (x y n k i c : Z) (a b : Long).

Ltac divmod := Z.div_mod_to_equations; lia.

Lemma small_high_bits y n :
  0 <= y < 2 ^ 31 → 31 <= n → Z.testbit y n = false.
Proof.
  intros Hy Hn. destruct (Z.eq_dec y 0) as [->|Hz]; [apply Z.bits_0|].
  apply Z.bits_above_log2; [lia|].
  assert (Z.log2 y < 31) by (apply Z.log2_lt_pow2; lia). lia.
Qed.

Lemma int32_high_bits y n :
  int32 y → 31 <= n → Z.testbit y n = (y <? 0).
Proof.
  intros Hy Hn. unfold int32 in Hy. destruct (Z.ltb_spec y 0).
  - rewrite <- (Z.lnot_involutive y), Z.lnot_spec by lia.
    rewrite small_high_bits; [done| |done]. unfold Z.lnot, Z.pred. lia.
  - apply small_high_bits; lia.
Qed.

Lemma testbit_ToInt32_low x i :
  i < 32 → Z.testbit (ToInt32 x) i = Z.testbit x i.
Proof.
  intros Hi.
  rewrite <- (Z.mod_pow2_bits_low (ToInt32 x) 32 i) by done.
  fold (ToUint32 (ToInt32 x)). rewrite ToUint32_ToInt32.
  by apply Z.mod_pow2_bits_low.
Qed.

Lemma testbit_ToInt32 x i :
  0 <= i → Z.testbit (ToInt32 x) i = Z.testbit x (Z.min i 31).
Proof.
  intros Hi. destruct (Z.lt_ge_cases i 32) as [Hlt|Hge].
  - destruct (Z.lt_ge_cases i 31).
    + rewrite Z.min_l by lia. by apply testbit_ToInt32_low.
    + rewrite Z.min_r by lia. replace i with 31 by lia.
      by apply testbit_ToInt32_low.
  - rewrite Z.min_r by lia.
    rewrite <- (testbit_ToInt32_low x 31) by done.
    rewrite !int32_high_bits; try done; try lia; apply ToInt32_range.
Qed.

Lemma testbit_ToUint32 x i :
  Z.testbit (ToUint32 x) i = (i <? 32) && Z.testbit x i.
Proof. by apply Z.testbit_mod_pow2. Qed.

Lemma shift_count c : 0 <= c < 32 → ToUint32 c mod 32 = c.
Proof. intros. unfold ToUint32. divmod. Qed.

Lemma testbit_shl x c i :
  0 <= c < 32 → i < 32 → Z.testbit (shl x c) i = Z.testbit x (i - c).
Proof.
  intros Hc Hi. unfold shl. rewrite shift_count by done.
  rewrite testbit_ToInt32_low, Z.mul_pow2_bits by lia.
  apply testbit_ToInt32_low. lia.
Qed.

Lemma testbit_shru x c i :
  0 <= c < 32 → 0 <= i →
  Z.testbit (shru x c) i = (i + c <? 32) && Z.testbit x (i + c).
Proof.
  intros Hc Hi. unfold shru. rewrite shift_count by done.
  rewrite Z.div_pow2_bits by lia. apply testbit_ToUint32.
Qed.

Lemma testbit_shr x c i :
  0 <= c < 32 → 0 <= i →
  Z.testbit (shr x c) i = Z.testbit x (Z.min (i + c) 31).
Proof.
  intros Hc Hi. unfold shr. rewrite shift_count by done.
  rewrite Z.div_pow2_bits by lia. apply testbit_ToInt32. lia.
Qed.

Lemma testbit_bor x y i :
  i < 32 → Z.testbit (bor x y) i = Z.testbit x i || Z.testbit y i.
Proof.
  intros. unfold bor. by rewrite Z.lor_spec, !testbit_ToInt32_low.
Qed.

Lemma testbit_band x y i :
  i < 32 → Z.testbit (band x y) i = Z.testbit x i && Z.testbit y i.
Proof.
  intros. unfold band. by rewrite Z.land_spec, !testbit_ToInt32_low.
Qed.

Lemma testbit_bxor x y i :
  i < 32 → Z.testbit (bxor x y) i = xorb (Z.testbit x i) (Z.testbit y i).
Proof.
  intros. unfold bxor. by rewrite Z.lxor_spec, !testbit_ToInt32_low.
Qed.

Lemma uvalue_lor a :
  uvalue a = Z.lor (ToUint32 (high a) * 2 ^ 32) (ToUint32 (low a)).
Proof.
  unfold uvalue. symmetry. apply lor_disjoint; [done|apply ToUint32_range].
Qed.

(** The bits of the unsigned value: the low word, then the high word. *)
Lemma testbit_uvalue a i :
  0 <= i →
  Z.testbit (uvalue a) i
  = if i <? 32 then Z.testbit (low a) i
    else (i <? 64) && Z.testbit (high a) (i - 32).
Proof.
  intros Hi. rewrite uvalue_lor, Z.lor_spec, Z.mul_pow2_bits by done.
  rewrite !testbit_ToUint32.
  destruct (Z.ltb_spec i 32).
  - rewrite (Z.testbit_neg_r _ (i - 32)) by lia.
    by rewrite andb_false_r.
  - cbn [andb]. rewrite orb_false_r.
    destruct (Z.ltb_spec (i - 32) 32), (Z.ltb_spec i 64); try done; lia.
Qed.

Lemma testbit_uvalue_new x y u i :
  0 <= i →
  Z.testbit (uvalue (new x y u)) i
  = if i <? 32 then Z.testbit x i else (i <? 64) && Z.testbit y (i - 32).
Proof.
  intros Hi. rewrite testbit_uvalue by done. unfold new; cbn [low high].
  rewrite !bor_0.
  destruct (Z.ltb_spec i 32); [by apply testbit_ToInt32_low|].
  destruct (Z.ltb_spec i 64); [|done]. cbn [andb].
  apply testbit_ToInt32_low. lia.
Qed.

(** The bitwise operations on Longs are the bitwise operations on their
    64-bit values. *)
Lemma uvalue_and a b : uvalue (and a b) = Z.land (uvalue a) (uvalue b).
Proof.
  apply Z.bits_inj'; intros i Hi. unfold and, fromBits.
  rewrite Z.land_spec, testbit_uvalue_new, !testbit_uvalue by done.
  destruct (Z.ltb_spec i 32); [by apply testbit_band|].
  destruct (Z.ltb_spec i 64); [|done]. cbn [andb].
  apply testbit_band. lia.
Qed.

Lemma uvalue_or a b : uvalue (or a b) = Z.lor (uvalue a) (uvalue b).
Proof.
  apply Z.bits_inj'; intros i Hi. unfold or, fromBits.
  rewrite Z.lor_spec, testbit_uvalue_new, !testbit_uvalue by done.
  destruct (Z.ltb_spec i 32); [by apply testbit_bor|].
  destruct (Z.ltb_spec i 64); [|done]. cbn [andb].
  apply testbit_bor. lia.
Qed.

Lemma uvalue_xor a b : uvalue (xor a b) = Z.lxor (uvalue a) (uvalue b).
Proof.
  apply Z.bits_inj'; intros i Hi. unfold xor, fromBits.
  rewrite Z.lxor_spec, testbit_uvalue_new, !testbit_uvalue by done.
  destruct (Z.ltb_spec i 32); [by apply testbit_bxor|].
  destruct (Z.ltb_spec i 64); [|done]. cbn [andb].
  apply testbit_bxor. lia.
Qed.

Lemma band_63 n : band n 63 = n mod 64.
Proof.
  unfold band. change (ToInt32 63) with (Z.ones 6).
  rewrite Z.land_ones by done. unfold ToInt32.
  change (2 ^ 6) with 64. divmod.
Qed.

End LongBits.

Section LongShifts.

Local Open Scope Z_scope.
Import Long.

Implicit Types (x y n k i c : Z) (a b : Long).

Ltac divmod := Z.div_mod_to_equations; lia.

Ltac split_ltb :=
  repeat match goal with
    | |- context [?x <? ?y] => destruct (Z.ltb_spec x y)
    end.

Ltac close_bits :=
  repeat match goal with
    | |- context [Z.testbit ?x ?j] => rewrite (Z.testbit_neg_r x j) by lia
    end;
  cbn [andb orb];
  rewrite ?andb_false_r, ?orb_false_r, ?andb_true_r, ?orb_true_r, ?Z.bits_0;
  first [ done | lia | f_equal; lia | idtac ].

(** The bits of the unsigned value at any index. *)
Lemma testbit_uvalue_at a j :
  Z.testbit (uvalue a) j
  = if j <? 0 then false
    else if j <? 32 then Z.testbit (low a) j
    else if j <? 64 then Z.testbit (high a) (j - 32)
    else false.
Proof.
  destruct (Z.ltb_spec j 0); [by apply Z.testbit_neg_r|].
  rewrite testbit_uvalue by done. by split_ltb.
Qed.

Lemma mod64_range n : 0 <= n mod 64 < 64.
Proof. divmod. Qed.

Ltac word_cases i :=
  destruct (Z.ltb_spec i 32); [|destruct (Z.ltb_spec i 64)]; cbn [andb];
  rewrite ?testbit_bor, ?testbit_shl, ?testbit_shru, ?testbit_shr by lia;
  split_ltb; close_bits.

Lemma uvalue_shiftLeft a n :
  uvalue (shiftLeft a n) = (uvalue a * 2 ^ (n mod 64)) mod 2 ^ 64.
Proof.
  unfold shiftLeft. cbv zeta. rewrite band_63.
  pose proof (mod64_range n) as Hk. set (k := n mod 64) in *.
  destruct (Z.eqb_spec k 0) as [->|Hk0].
  { pose proof (uvalue_range a). rewrite Z.mul_1_r. divmod. }
  apply Z.bits_inj'; intros i Hi.
  destruct (Z.ltb_spec k 32); cbv iota; unfold fromBits;
    rewrite testbit_uvalue_new by done;
    rewrite Z.testbit_mod_pow2, Z.mul_pow2_bits, testbit_uvalue_at by lia;
    word_cases i.
Qed.

Lemma uvalue_shiftRightUnsigned a n :
  uvalue (shiftRightUnsigned a n) = uvalue a / 2 ^ (n mod 64).
Proof.
  unfold shiftRightUnsigned. cbv zeta. rewrite band_63.
  pose proof (mod64_range n) as Hk. set (k := n mod 64) in *.
  destruct (Z.eqb_spec k 0) as [->|Hk0]; [by rewrite Z.div_1_r|].
  apply Z.bits_inj'; intros i Hi.
  destruct (Z.ltb_spec k 32); [|destruct (Z.eqb_spec k 32)];
    cbv iota; unfold fromBits; rewrite testbit_uvalue_new by done;
    rewrite Z.div_pow2_bits, testbit_uvalue_at by lia;
    word_cases i.
Qed.

Lemma svalue_lor a :
  svalue a = Z.lor (ToInt32 (high a) * 2 ^ 32) (ToUint32 (low a)).
Proof.
  unfold svalue. symmetry. apply lor_disjoint; [done|apply ToUint32_range].
Qed.

(** The bits of the signed value: the low word, the high word, and the
    sign bit from there on. *)
Lemma testbit_svalue a j :
  0 <= j →
  Z.testbit (svalue a) j
  = if j <? 32 then Z.testbit (low a) j
    else Z.testbit (high a) (Z.min (j - 32) 31).
Proof.
  intros Hj. rewrite svalue_lor, Z.lor_spec, Z.mul_pow2_bits by done.
  rewrite testbit_ToUint32. destruct (Z.ltb_spec j 32); cbn [andb].
  - by rewrite Z.testbit_neg_r by lia.
  - rewrite orb_false_r. apply testbit_ToInt32. lia.
Qed.

Lemma testbit_svalue_new x y u j :
  0 <= j →
  Z.testbit (svalue (new x y u)) j
  = if j <? 32 then Z.testbit x j else Z.testbit y (Z.min (j - 32) 31).
Proof.
  intros Hj. rewrite testbit_svalue by done. unfold new; cbn [low high].
  rewrite !bor_0. destruct (Z.ltb_spec j 32).
  - by apply testbit_ToInt32_low.
  - apply testbit_ToInt32_low. lia.
Qed.

Lemma svalue_shiftRight a n :
  wf a → svalue (shiftRight a n) = svalue a / 2 ^ (n mod 64).
Proof.
  intros [_ Hh]. unfold shiftRight. cbv zeta. rewrite band_63.
  pose proof (mod64_range n) as Hk. set (k := n mod 64) in *.
  destruct (Z.eqb_spec k 0) as [->|Hk0]; [by rewrite Z.div_1_r|].
  apply Z.bits_inj'; intros i Hi.
  destruct (Z.ltb_spec k 32); cbv iota; unfold fromBits;
    rewrite testbit_svalue_new by done;
    rewrite Z.div_pow2_bits, testbit_svalue by lia.
  - destruct (Z.ltb_spec i 32).
    + rewrite testbit_bor, testbit_shl, testbit_shru by lia.
      split_ltb; close_bits.
    + rewrite testbit_shr by lia. split_ltb; close_bits.
  - destruct (Z.ltb_spec i 32).
    + rewrite testbit_shr by lia. split_ltb; close_bits.
    + split_ltb; try lia.
      replace (Z.min (i + k - 32) 31) with 31 by lia.
      rewrite (int32_high_bits (high a) 31) by done.
      destruct (Z.leb_spec 0 (high a)), (Z.ltb_spec (high a) 0); try lia.
      * apply Z.bits_0.
      * apply Z.bits_m1. lia.
Qed.

Lemma testbit_rotateLeft a n i :
  0 <= i < 64 →
  Z.testbit (uvalue (rotateLeft a n)) i
  = Z.testbit (uvalue a) ((i - n mod 64) mod 64).
Proof.
  intros Hi. unfold rotateLeft. cbv zeta. rewrite band_63.
  pose proof (mod64_range n) as Hk. set (k := n mod 64) in *.
  assert ((i - k) mod 64 = i - k ∧ k <= i
          ∨ (i - k) mod 64 = i - k + 64 ∧ i < k) as Hj by divmod.
  destruct (Z.eqb_spec k 0) as [Hk0|Hk0].
  { destruct Hj as [[-> _]|[_ ?]]; [|lia]. f_equal. lia. }
  destruct (Z.eqb_spec k 32); [|destruct (Z.ltb_spec k 32)];
    cbv iota; unfold fromBits; rewrite testbit_uvalue_new by lia;
    destruct Hj as [[-> ?]|[-> ?]]; rewrite testbit_uvalue_at;
    word_cases i.
Qed.

Lemma testbit_rotateRight a n i :
  0 <= i < 64 →
  Z.testbit (uvalue (rotateRight a n)) i
  = Z.testbit (uvalue a) ((i + n mod 64) mod 64).
Proof.
  intros Hi. unfold rotateRight. cbv zeta. rewrite band_63.
  pose proof (mod64_range n) as Hk. set (k := n mod 64) in *.
  assert ((i + k) mod 64 = i + k ∧ i + k < 64
          ∨ (i + k) mod 64 = i + k - 64 ∧ 64 <= i + k) as Hj by divmod.
  destruct (Z.eqb_spec k 0) as [Hk0|Hk0].
  { destruct Hj as [[-> _]|[_ ?]]; [|lia]. f_equal. lia. }
  destruct (Z.eqb_spec k 32); [|destruct (Z.ltb_spec k 32)];
    cbv iota; unfold fromBits; rewrite testbit_uvalue_new by lia;
    destruct Hj as [[-> ?]|[-> ?]]; rewrite testbit_uvalue_at;
    word_cases i.
Qed.

Lemma uvalue_bits_eq a b :
  (∀ i, 0 <= i < 64 → Z.testbit (uvalue a) i = Z.testbit (uvalue b) i) →
  uvalue a = uvalue b.
Proof.
  intros H. apply Z.bits_inj'; intros i Hi.
  destruct (Z.lt_ge_cases i 64); [by apply H|].
  rewrite !testbit_uvalue_at. split_ltb; close_bits.
Qed.

Lemma long_eq a b :
  wf a → wf b → unsigned a = unsigned b → uvalue a = uvalue b → a = b.
Proof.
  intros Ha Hb Hu Hv. destruct (fields_uvalue a b Ha Hb Hv) as [Hh Hl].
  destruct a, b; cbn in *. by subst.
Qed.

Lemma rotate_wf a n : wf a → wf (rotateLeft a n) ∧ wf (rotateRight a n).
Proof.
  intros Ha. unfold rotateLeft, rotateRight. cbv zeta.
  repeat case_match; try done; split; try done; apply new_wf.
Qed.

Lemma rotate_unsigned a n :
  unsigned (rotateLeft a n) = unsigned a
  ∧ unsigned (rotateRight a n) = unsigned a.
Proof.
  unfold rotateLeft, rotateRight. cbv zeta. by repeat case_match.
Qed.

Lemma rotateRight_rotateLeft a n :
  wf a →
  rotateRight (rotateLeft a n) n = a ∧ rotateLeft (rotateRight a n) n = a.
Proof.
  intros Ha. pose proof (mod64_range n) as Hk.
  split; apply long_eq; try done.
  - by apply rotate_wf, rotate_wf.
  - destruct (rotate_unsigned (rotateLeft a n) n) as [_ ->].
    by destruct (rotate_unsigned a n) as [-> _].
  - apply uvalue_bits_eq; intros i Hi.
    rewrite testbit_rotateRight, testbit_rotateLeft by (done || divmod).
    f_equal. divmod.
  - by apply rotate_wf, rotate_wf.
  - destruct (rotate_unsigned (rotateRight a n) n) as [-> _].
    by destruct (rotate_unsigned a n) as [_ ->].
  - apply uvalue_bits_eq; intros i Hi.
    rewrite testbit_rotateLeft, testbit_rotateRight by (done || divmod).
    f_equal. divmod.
Qed.

End LongShifts.

Section LongTheorems.

Local Open Scope Z_scope.
Import Long.

Implicit Types (n : Z) (a b : Long).

(** X18.  [add] is addition modulo [2 ^ 64]: the value of the sum is the sum of
    the values brought into the range of the receiver's signedness, which
    the result keeps. *)
Theorem Long_add_wraps a b :
  value (add a b) = wrap (unsigned a) (value a + value b)
  ∧ unsigned (add a b) = unsigned a
  ∧ wf (add a b).
Proof. split; [apply value_add|]. split; [done|apply add_wf]. Qed.

(** X19.  [negate] is negation modulo [2 ^ 64]; in particular [MIN_VALUE] is
    its own negation. *)
Theorem Long_negate_wraps a :
  value (negate a) = wrap (unsigned a) (- value a)
  ∧ unsigned (negate a) = unsigned a
  ∧ negate MIN_VALUE = MIN_VALUE.
Proof.
  destruct (value_negate a) as [H1 H2]. split; [done|]. split; done.
Qed.

(** X20.  [subtract] is subtraction modulo [2 ^ 64]. *)
Theorem Long_subtract_wraps a b :
  value (subtract a b) = wrap (unsigned a) (value a - value b)
  ∧ unsigned (subtract a b) = unsigned a.
Proof. split; [apply value_subtract|done]. Qed.

(** X21.  [equals] compares the numbers two Longs stand for, also when one is
    signed and the other unsigned. *)
Theorem Long_equals_value a b :
  wf a → wf b → (equals a b = true ↔ value a = value b).
Proof. apply equals_value. Qed.

Lemma Long_equals_value_witness :
  equals (fromBits (-1) (-1) false) (fromBits (-1) (-1) true) = true
  ↔ value (fromBits (-1) (-1) false) = value (fromBits (-1) (-1) true).
Proof.
  apply (Long_equals_value (fromBits (-1) (-1) false)
           (fromBits (-1) (-1) true)); apply new_wf.
Defined.

(** X22.  [compare] on two Longs of the same signedness is the comparison of
    their values: -1, 0 or 1. *)
Theorem Long_compare_value a b :
  wf a → wf b → unsigned a = unsigned b →
  compare a b
  = match value a ?= value b with Eq => 0 | Lt => -1 | Gt => 1 end.
Proof. apply compare_value. Qed.

Lemma Long_compare_value_witness :
  compare (fromBits 5 0 false) (fromBits (-1) (-1) false) = 1.
Proof.
  apply (Long_compare_value (fromBits 5 0 false) (fromBits (-1) (-1) false));
    [apply new_wf|apply new_wf|reflexivity].
Defined.

(** X23.  The eight bytes of a Long are bytes, the big-endian order is the
    little-endian one reversed, and reading them back in either order
    gives the Long again. *)
Theorem Long_bytes_roundtrip a :
  wf a →
  Forall byte (toBytesLE a)
  ∧ toBytesBE a = rev (toBytesLE a)
  ∧ fromBytesLE (toBytesLE a) (unsigned a) = a
  ∧ fromBytesBE (toBytesBE a) (unsigned a) = a.
Proof.
  intros Ha. split; [apply toBytesLE_bytes|]. split; [done|].
  split; [by apply fromBytesLE_toBytesLE|by apply fromBytesBE_toBytesBE].
Qed.

Lemma Long_bytes_roundtrip_witness :
  fromBytesLE (toBytesLE (fromBits 0x81020304 (-2) false)) false
  = fromBits 0x81020304 (-2) false.
Proof.
  exact (proj1 (proj2 (proj2
           (Long_bytes_roundtrip (fromBits 0x81020304 (-2) false)
              (new_wf _ _ _))))).
Defined.

(** X24.  Any eight bytes read as a Long and written out again are the same
    eight bytes. *)
Theorem Long_bytes_inverse (b0 b1 b2 b3 b4 b5 b6 b7 : Z) (u : bool) :
  Forall byte [b0; b1; b2; b3; b4; b5; b6; b7] →
  toBytesLE (fromBytesLE [b0; b1; b2; b3; b4; b5; b6; b7] u)
  = [b0; b1; b2; b3; b4; b5; b6; b7].
Proof. apply toBytesLE_fromBytesLE. Qed.

Lemma Long_bytes_inverse_witness :
  toBytesLE (fromBytesLE [1; 2; 3; 255; 0; 128; 7; 254] true)
  = [1; 2; 3; 255; 0; 128; 7; 254].
Proof.
  apply (Long_bytes_inverse 1 2 3 255 0 128 7 254 true).
  repeat constructor; unfold byte; lia.
Defined.

(** X25.  [and], [or], [xor] and [not] act bit by bit on the 64-bit value. *)
Theorem Long_bitwise a b :
  uvalue (and a b) = Z.land (uvalue a) (uvalue b)
  ∧ uvalue (or a b) = Z.lor (uvalue a) (uvalue b)
  ∧ uvalue (xor a b) = Z.lxor (uvalue a) (uvalue b)
  ∧ uvalue (not a) = 2 ^ 64 - 1 - uvalue a.
Proof.
  split; [apply uvalue_and|]. split; [apply uvalue_or|].
  split; [apply uvalue_xor|apply uvalue_not].
Qed.

(** X26.  [shiftLeft] by [n] multiplies by [2 ^ (n mod 64)] modulo [2 ^ 64]. *)
Theorem Long_shiftLeft_value a n :
  uvalue (shiftLeft a n) = (uvalue a * 2 ^ (n mod 64)) mod 2 ^ 64.
Proof. apply uvalue_shiftLeft. Qed.

(** X27.  [shiftRightUnsigned] by [n] divides the unsigned value by
    [2 ^ (n mod 64)]. *)
Theorem Long_shiftRightUnsigned_value a n :
  uvalue (shiftRightUnsigned a n) = uvalue a / 2 ^ (n mod 64).
Proof. apply uvalue_shiftRightUnsigned. Qed.

(** X28.  [shiftRight] by [n] divides the signed value by [2 ^ (n mod 64)],
    rounding down: the sign is kept. *)
Theorem Long_shiftRight_value a n :
  wf a → svalue (shiftRight a n) = svalue a / 2 ^ (n mod 64).
Proof. apply svalue_shiftRight. Qed.

Lemma Long_shiftRight_value_witness :
  svalue (shiftRight (fromBits 0 (-8) false) 33) = -4.
Proof.
  exact (Long_shiftRight_value (fromBits 0 (-8) false) 33 (new_wf _ _ _)).
Defined.

(** X29.  [rotateLeft] by [n] moves every bit of the 64-bit value up by
    [n mod 64] places, around the end; [rotateRight] undoes it, and the
    other way round. *)
Theorem Long_rotate_inverse a n :
  wf a →
  (∀ i, 0 <= i < 64 →
        Z.testbit (uvalue (rotateLeft a n)) i
        = Z.testbit (uvalue a) ((i - n mod 64) mod 64))
  ∧ rotateRight (rotateLeft a n) n = a
  ∧ rotateLeft (rotateRight a n) n = a.
Proof.
  intros Ha. split; [intros i Hi; by apply testbit_rotateLeft|].
  by apply rotateRight_rotateLeft.
Qed.

Lemma Long_rotate_inverse_witness :
  rotateRight (rotateLeft (fromBits 1 (-2) true) 63) 63
  = fromBits 1 (-2) true.
Proof.
  exact (proj1 (proj2 (Long_rotate_inverse (fromBits 1 (-2) true) 63
                         (new_wf _ _ _)))).
Defined.

End LongTheorems.
